(** * The event store of blockchain-universe (internal/blockchain)

    A shallow embedding of [blockchain.go]: the [Event], [AgentInfo] and
    [Blockchain] types, the methods of [*Blockchain], and the properties
    that its specification states about them.

    Conventions of the embedding.
    - A Go [string] is a byte sequence and is a [string] here; a [[]byte]
      is a [list byte]; [[]byte(s)] is [list_byte_of_string s].
    - A Go [map[string]V] is a [gmap string V]; a map that may be [nil]
      and whose nil-ness is observable (the payload map, which
      [json.Marshal] prints as [null]) is an [option (gmap string string)].
    - A method with receiver [bc *Blockchain] is a computation in the
      monad [St]: it takes the store and returns an outcome and the
      store.  An outcome is a value, a returned [error], or a panic.
    - A [*Event] is modelled by the event it points to: the store holds
      the events as they were when they were added (events are immutable
      once signed).
    - [time.Now()] is an explicit argument [now] of the methods that read
      the clock.  The mutex and the logger have no effect on the two maps
      and are left out.
    - [encoding/hex] is embedded in full.  [crypto/sha3], [encoding/json],
      [crypto/ed25519] and the RFC 3339 formatter are the fields of a
      record [Primitives]; the length checks with which [ed25519.Sign] and
      [ed25519.Verify] panic are written out. *)

From Stdlib Require Import ZArith Lia.
From Stdlib.Strings Require Import Ascii String Byte.
From Corelib Require PrimFloat.
From stdpp Require Import gmap strings list sorting.
From stdpp Require Import pretty.

Local Open Scope Z_scope.

Global Instance byte_eq_dec : EqDecision byte := Byte.byte_eq_dec.

(** ** encoding/hex *)

Module hex.

Inductive error : Type :=
| ErrLength
| InvalidByteError (c : ascii).

Definition hextable : string := "0123456789abcdef".

Definition digit (n : N) : ascii :=
  match String.get (N.to_nat n) hextable with
  | Some c => c
  | None => "0"%char
  end.

(** [hex.EncodeToString]: two lower-case digits per byte. *)
Fixpoint EncodeToString (src : list byte) : string :=
  match src with
  | [] => EmptyString
  | b :: rest =>
      String (digit (N.shiftr (Byte.to_N b) 4))
        (String (digit (N.land (Byte.to_N b) 15)) (EncodeToString rest))
  end.

(** [fromHexChar]: digits, and letters of either case. *)
Definition fromHexChar (c : ascii) : option N :=
  let n := N_of_ascii c in
  if (48 <=? n)%N && (n <=? 57)%N then Some (n - 48)%N
  else if (97 <=? n)%N && (n <=? 102)%N then Some (n - 97 + 10)%N
  else if (65 <=? n)%N && (n <=? 70)%N then Some (n - 65 + 10)%N
  else None.

Definition mkbyte (a b : N) : byte :=
  match Byte.of_N (N.lor (N.shiftl a 4) b) with
  | Some x => x
  | None => Byte.x00
  end.

(** [hex.DecodeString]: the first offending character is reported; an
    odd number of valid digits is [ErrLength]. *)
Fixpoint DecodeString (s : string) : error + list byte :=
  match s with
  | EmptyString => inr []
  | String p EmptyString =>
      match fromHexChar p with
      | None => inl (InvalidByteError p)
      | Some _ => inl ErrLength
      end
  | String p (String q rest) =>
      match fromHexChar p with
      | None => inl (InvalidByteError p)
      | Some a =>
          match fromHexChar q with
          | None => inl (InvalidByteError q)
          | Some b =>
              match DecodeString rest with
              | inl e => inl e
              | inr bs => inr (mkbyte a b :: bs)
              end
          end
      end
  end.

End hex.

(** ** Data model *)

Definition Time := Z.

(** The anonymous struct [Event.Data]. *)
Record EventData : Type := mkData {
  Type_ : string;
  Description : string;
  Payload : option (gmap string string);
  Timestamp : string;
}.

Record Event : Type := mkEvent {
  Data : EventData;
  Parents : list string;
  Signature : string;
  AuthorPubKey : string;
}.

Record AgentInfo : Type := mkAgentInfo {
  PubKey : string;
  LastEventHash : string;
  LastSeen : Time;
}.

Record Blockchain : Type := mkBlockchain {
  events : gmap string Event;
  agents : gmap string AgentInfo;
}.

Global Instance EventData_eq_dec : EqDecision EventData.
Proof. solve_decision. Defined.
Global Instance Event_eq_dec : EqDecision Event.
Proof. solve_decision. Defined.
Global Instance AgentInfo_eq_dec : EqDecision AgentInfo.
Proof. solve_decision. Defined.

(** [New]: both maps empty. *)
Definition New : Blockchain := {| events := ∅; agents := ∅ |}.

(** ** Errors and outcomes *)

Inductive error : Type :=
| InvalidPublicKey (e : hex.error)      (* "invalid public key: %w" *)
| InvalidSignature (e : hex.error)      (* "invalid signature: %w" *)
| SignatureVerificationFailed           (* "signature verification failed" *)
| EventVerificationFailed (e : error)   (* "event verification failed: %w" *)
| FailedToSignEvent (e : error).        (* "failed to sign event: %w" *)

Inductive outcome (A : Type) : Type :=
| Ok (a : A)
| Err (e : error)
| Panic (msg : string).
Arguments Ok {A} a.
Arguments Err {A} e.
Arguments Panic {A} msg.

Global Instance hex_error_eq_dec : EqDecision hex.error.
Proof. solve_decision. Defined.
Global Instance error_eq_dec : EqDecision error.
Proof. solve_decision. Defined.
Global Instance outcome_eq_dec {A} `{EqDecision A} : EqDecision (outcome A).
Proof. solve_decision. Defined.
Global Instance Blockchain_eq_dec : EqDecision Blockchain.
Proof. solve_decision. Defined.

Definition is_Ok {A} (o : outcome A) : bool :=
  match o with Ok _ => true | _ => false end.
Definition is_Err {A} (o : outcome A) : bool :=
  match o with Err _ => true | _ => false end.
Definition is_Panic {A} (o : outcome A) : bool :=
  match o with Panic _ => true | _ => false end.

(** ** The monad of receiver methods *)

Definition St (A : Type) : Type := Blockchain → outcome A * Blockchain.

Definition ret {A} (a : A) : St A := λ bc, (Ok a, bc).
Definition fail {A} (e : error) : St A := λ bc, (Err e, bc).
Definition lift {A} (o : outcome A) : St A := λ bc, (o, bc).
Definition bind {A B} (m : St A) (k : A → St B) : St B :=
  λ bc, match m bc with
        | (Ok a, bc') => k a bc'
        | (Err e, bc') => (Err e, bc')
        | (Panic msg, bc') => (Panic msg, bc')
        end.
Definition gets {A} (f : Blockchain → A) : St A := λ bc, (Ok (f bc), bc).
Definition modify (f : Blockchain → Blockchain) : St unit := λ bc, (Ok tt, f bc).
(** [if err != nil { return ..., fmt.Errorf("...: %w", err) }] *)
Definition wrapErr {A} (w : error → error) (m : St A) : St A :=
  λ bc, match m bc with
        | (Err e, bc') => (Err (w e), bc')
        | r => r
        end.

Declare Scope st_scope.
Delimit Scope st_scope with st.
Notation "x <- c1 ;; c2" := (bind c1 (λ x, c2))
  (at level 100, c1 at next level, right associativity) : st_scope.
Notation "c1 ;; c2" := (bind c1 (λ _, c2))
  (at level 100, right associativity) : st_scope.
Local Open Scope st_scope.

(** ** The external primitives *)

Record Primitives : Type := mkPrimitives {
  (** [sha3.Sum512] *)
  sha3_Sum512 : list byte → list byte;
  (** [json.Marshal] at the type of [Event.Data]; it does not fail there *)
  json_Marshal : EventData → list byte;
  (** [ed25519.Sign privateKey message]; [None] when it panics *)
  ed25519_Sign : list byte → list byte → option (list byte);
  (** [ed25519.Verify publicKey message sig]; [None] when it panics *)
  ed25519_Verify : list byte → list byte → list byte → option bool;
  (** the pairs [(pub, priv)] that [ed25519.GenerateKey] can return *)
  ed25519_keypair : list byte → list byte → Prop;
  (** [t.UTC().Format(time.RFC3339)] *)
  time_RFC3339 : Time → string;
}.

Definition PublicKeySize : nat := 32.
Definition PrivateKeySize : nat := 64.

(** What the documentation of [crypto/ed25519] promises: [Sign] and
    [Verify] panic on a key of the wrong length, [Verify] returns on a
    key of the right one, and a signature made with the private key of a
    generated pair verifies under its public key. *)
Record ed25519_contract (P : Primitives) : Prop := {
  sign_key_size : ∀ priv message,
    List.length priv ≠ PrivateKeySize → ed25519_Sign P priv message = None;
  verify_key_size : ∀ pub message sig,
    List.length pub ≠ PublicKeySize → ed25519_Verify P pub message sig = None;
  verify_returns : ∀ pub message sig,
    List.length pub = PublicKeySize → is_Some (ed25519_Verify P pub message sig);
  keypair_pub_size : ∀ pub priv,
    ed25519_keypair P pub priv → List.length pub = PublicKeySize;
  sign_verify : ∀ pub priv message,
    ed25519_keypair P pub priv →
    ∃ sig, ed25519_Sign P priv message = Some sig
           ∧ ed25519_Verify P pub message sig = Some true;
}.


(** A call of a library function that may panic. *)
Definition call {A} (r : option A) (msg : string) : St A :=
  match r with
  | Some a => ret a
  | None => lift (Panic msg)
  end.

Section Store.

Context (P : Primitives).

(** The digest that [HashEvent] returns: it reads [event.Data] only. *)
Definition hash_of (event : Event) : string :=
  hex.EncodeToString (sha3_Sum512 P (json_Marshal P (Data event))).

Definition HashEvent (event : Event) : St string :=
  let eventBytes := json_Marshal P (Data event) in
  let hash := sha3_Sum512 P eventBytes in
  ret (hex.EncodeToString hash).

Definition signEvent (event : Event) (priv : list byte) : St string :=
  eventHash <- HashEvent event ;;
  signature <- call (ed25519_Sign P priv (list_byte_of_string eventHash))
                    "ed25519: bad private key" ;;
  ret (hex.EncodeToString signature).

Definition verifyEvent (event : Event) : St unit :=
  match hex.DecodeString (AuthorPubKey event) with
  | inl err => fail (InvalidPublicKey err)
  | inr pubKeyBytes =>
      match hex.DecodeString (Signature event) with
      | inl err => fail (InvalidSignature err)
      | inr signatureBytes =>
          eventHash <- HashEvent event ;;
          valid <- call (ed25519_Verify P pubKeyBytes
                           (list_byte_of_string eventHash) signatureBytes)
                        "ed25519: bad public key length" ;;
          if valid : bool then ret tt else fail SignatureVerificationFailed
      end
  end.

(** The event as [CreateEvent] has filled it in before signing. *)
Definition unsigned_event (eventType description : string)
    (payload : option (gmap string string)) (parents : list string)
    (pub : list byte) (now : Time) : Event :=
  {| Data := {| Type_ := eventType;
                Description := description;
                Payload := payload;
                Timestamp := time_RFC3339 P now |};
     Parents := parents;
     Signature := EmptyString;
     AuthorPubKey := hex.EncodeToString pub |}.

Definition with_Signature (event : Event) (signature : string) : Event :=
  {| Data := Data event; Parents := Parents event;
     Signature := signature; AuthorPubKey := AuthorPubKey event |}.

Definition CreateEvent (eventType description : string)
    (payload : option (gmap string string)) (parents : list string)
    (pub priv : list byte) (now : Time) : St Event :=
  let event := unsigned_event eventType description payload parents pub now in
  signature <- wrapErr FailedToSignEvent (signEvent event priv) ;;
  ret (with_Signature event signature).

Definition AddEvent (event : Event) (now : Time) : St unit :=
  wrapErr EventVerificationFailed (verifyEvent event) ;;
  hash <- HashEvent event ;;
  modify (λ bc, {| events := <[hash := event]> (events bc);
                   agents := agents bc |}) ;;
  modify (λ bc, {| events := events bc;
                   agents := <[AuthorPubKey event :=
                                 {| PubKey := AuthorPubKey event;
                                    LastEventHash := hash;
                                    LastSeen := now |}]> (agents bc) |}) ;;
  ret tt.

(** [GetEvent]: the pair [(event, exists)] is an [option]. *)
Definition GetEvent (hash : string) : St (option Event) :=
  gets (λ bc, events bc !! hash).

Definition GetAgents : St (gmap string AgentInfo) :=
  gets agents.

End Store.

(** ** GetRecentEvents *)

(** Go's [int] (64 bits) with its wrap-around. *)
Definition int_wrap (z : Z) : Z := (z + 2 ^ 63) `mod` 2 ^ 64 - 2 ^ 63.

Definition int_range (z : Z) : Prop := - 2 ^ 63 ≤ z < 2 ^ 63.

(** The slice expression [s[lo:]]: it panics unless [0 <= lo <= len(s)]. *)
Definition slice_from {A} (s : list A) (lo : Z) : outcome (list A) :=
  if (lo <? 0) || (Z.of_nat (List.length s) <? lo)
  then Panic "slice bounds out of range"
  else Ok (drop (Z.to_nat lo) s).

(** [for _, event := range bc.events] visits every entry once, in an order
    that Go leaves unspecified: a [range] is a function from the map to
    the list of its values in the order of the visit. *)
Definition range_order (range : gmap string Event → list Event) : Prop :=
  ∀ m, range m ≡ₚ (map_to_list m).*2.

Definition GetRecentEvents (range : gmap string Event → list Event)
    (limit : Z) : St (list Event) :=
  evs <- gets (λ bc, range (events bc)) ;;
  if Z.of_nat (List.length evs) >? limit
  then lift (slice_from evs (int_wrap (Z.of_nat (List.length evs) - limit)))
  else ret evs.

(** Two orders of visit: that of the list of entries of the map, and the
    reverse of it. *)
Definition range_entries (m : gmap string Event) : list Event :=
  (map_to_list m).*2.
Definition range_reverse (m : gmap string Event) : list Event :=
  reverse (map_to_list m).*2.

(** "Most recent first": RFC 3339 timestamps in UTC are ordered as strings. *)
Definition not_older (a b : Event) : Prop :=
  String.leb (Timestamp (Data b)) (Timestamp (Data a)) = true.

Definition most_recent_first (l : list Event) : Prop :=
  StronglySorted not_older l.

(** ** GetEventChain *)

(** The closure [traverse] with the two variables it captures, [chain] and
    [visited], as its state.  [fuel] bounds the recursion depth; [None]
    is "out of fuel" and is shown below not to occur. *)
Definition TravState : Type := list Event * gset string.

(** [for _, parent := range event.Parents { traverse(parent, depth+1) }] *)
Definition visit_parents (visit : string → Z → TravState → option TravState)
    (depth : Z) (acc : option TravState) (parents : list string) : option TravState :=
  foldl (λ acc parent, acc ≫= visit parent depth) acc parents.

Fixpoint traverse (evs : gmap string Event) (maxDepth : Z) (fuel : nat)
    (h : string) (depth : Z) (st : TravState) : option TravState :=
  match fuel with
  | O => None
  | S fuel' =>
      if (depth >=? maxDepth) || bool_decide (h ∈ st.2)
      then Some st
      else
        match evs !! h with
        | None => Some st
        | Some event =>
            visit_parents (traverse evs maxDepth fuel') (depth + 1)
              (Some (st.1 ++ [event], {[h]} ∪ st.2)) (Parents event)
        end
  end.

Definition chain_fuel (maxDepth : Z) : nat := S (Z.to_nat maxDepth).

Definition GetEventChain_fuel (fuel : nat) (hash : string) (maxDepth : Z)
    (bc : Blockchain) : option (list Event) :=
  fst <$> traverse (events bc) maxDepth fuel hash 0 ([], ∅).

Definition GetEventChain (hash : string) (maxDepth : Z) : St (list Event) :=
  λ bc, match GetEventChain_fuel (chain_fuel maxDepth) hash maxDepth bc with
        | Some chain => (Ok chain, bc)
        | None => (Panic "out of fuel", bc)
        end.

(** [reach evs h n h']: [h'] is [n] parent hops away from [h], along
    events stored in [evs]. *)
Inductive reach (evs : gmap string Event) (h : string) : nat → string → Prop :=
| reach_here : reach evs h 0 h
| reach_hop n h' e p :
    reach evs h n h' → evs !! h' = Some e → p ∈ Parents e →
    reach evs h (S n) p.

(** Depth-first search in the words of the specification, with an explicit
    stack of the hashes still to visit, each with its number of hops from
    the start: the top of the stack is visited next, and the parents of a
    visited event are pushed, in their order, above what was waiting.
    [gas] bounds the number of steps. *)
Fixpoint dfs_stack (evs : gmap string Event) (maxDepth : Z) (gas : nat)
    (stack : list (string * Z)) (st : TravState) : option TravState :=
  match gas with
  | O => match stack with [] => Some st | _ => None end
  | S gas' =>
      match stack with
      | [] => Some st
      | (h, depth) :: waiting =>
          if (depth >=? maxDepth) || bool_decide (h ∈ st.2)
          then dfs_stack evs maxDepth gas' waiting st
          else
            match evs !! h with
            | None => dfs_stack evs maxDepth gas' waiting st
            | Some event =>
                dfs_stack evs maxDepth gas'
                  (((λ parent, (parent, depth + 1)) <$> Parents event) ++ waiting)
                  (st.1 ++ [event], {[h]} ∪ st.2)
            end
      end
  end.

(** The hashes visited so far, in the order of the visit, against the
    state of [traverse]. *)
Definition visit_log (evs : gmap string Event) (hashes : list string)
    (st : TravState) : Prop :=
  NoDup hashes
  ∧ st.2 = list_to_set hashes
  ∧ Forall2 (λ h e, evs !! h = Some e) hashes st.1.

(** ** Auxiliary notions of the specification *)

Section Notions.

Context (P : Primitives).

(** The verdict of [verifyEvent], which reads the event only. *)
Definition verdict (event : Event) : outcome unit :=
  (verifyEvent P event New).1.

(** The store after [AddEvent] has accepted [event] at time [now]. *)
Definition accepted (event : Event) (now : Time) (bc : Blockchain) : Blockchain :=
  {| events := <[hash_of P event := event]> (events bc);
     agents := <[AuthorPubKey event :=
                   {| PubKey := AuthorPubKey event;
                      LastEventHash := hash_of P event;
                      LastSeen := now |}]> (agents bc) |}.

(** A sequence of [AddEvent] calls, each with the time of the call; it
    stops at the first call that does not succeed. *)
Fixpoint AddEvents (calls : list (Event * Time)) : St unit :=
  match calls with
  | [] => ret tt
  | (event, now) :: rest => AddEvent P event now ;; AddEvents rest
  end.

(** Every event is stored under the hash of its payload. *)
Definition events_wf (bc : Blockchain) : Prop :=
  ∀ h e, events bc !! h = Some e → hash_of P e = h.


End Notions.

(** ** The stores that the code builds *)

(** A store is reachable when it is that of [New] or the store left by a
    call of [AddEvent], accepted or not, on a reachable store. *)
Inductive reachable (P : Primitives) : Blockchain → Prop :=
| reachable_New : reachable P New
| reachable_AddEvent bc e now :
    reachable P bc → reachable P (AddEvent P e now bc).2.

(** What every reachable store satisfies (shown below). *)
Record store_inv (P : Primitives) (bc : Blockchain) : Prop := {
  inv_keyed : ∀ h e, events bc !! h = Some e → hash_of P e = h;
  inv_verified : ∀ h e, events bc !! h = Some e → verdict P e = Ok tt;
  inv_author : ∀ h e, events bc !! h = Some e →
                      is_Some (agents bc !! AuthorPubKey e);
  inv_agent_key : ∀ k a, agents bc !! k = Some a → PubKey a = k;
  inv_agent_last : ∀ k a, agents bc !! k = Some a →
                          is_Some (events bc !! LastEventHash a);
  inv_agent_event : ∀ k a, agents bc !! k = Some a →
                           ∃ e, verdict P e = Ok tt ∧ AuthorPubKey e = k;
}.

(** [linked P prev es]: the first event of [es] has the parents [prev],
    and each later one has the hash of the event before it as its only
    parent, as the events that one agent makes in turn have. *)
Fixpoint linked (P : Primitives) (prev : list string) (es : list Event) : Prop :=
  match es with
  | [] => True
  | e :: rest => Parents e = prev ∧ linked P [hash_of P e] rest
  end.

(** The last call of a sequence that satisfies [sel]. *)
Definition last_call (sel : Event → Prop) `{∀ e, Decision (sel e)}
    (calls : list (Event * Time)) : option (Event * Time) :=
  last (filter (λ c, sel c.1) calls).

(** ** A model of the primitives

    An instance of [Primitives] that computes, on which the assumptions
    made about the primitives below can be checked and the methods run on
    concrete events.  Its signature of a message under the private key
    [seed ++ pub] is [pub ++ message]. *)

Module Model.

Definition pad64 (bs : list byte) : list byte :=
  take 64 (bs ++ replicate 64 Byte.x00).

Definition payload_string (p : option (gmap string string)) : string :=
  match p with
  | None => "null"
  | Some m =>
      foldr (λ kv acc, (kv.1 ++ "=" ++ kv.2 ++ ";" ++ acc)%string)
            EmptyString (map_to_list m)
  end.

Definition marshal (d : EventData) : list byte :=
  list_byte_of_string
    (Type_ d ++ "|" ++ Description d ++ "|"
     ++ payload_string (Payload d) ++ "|" ++ Timestamp d)%string.

Definition sign (priv message : list byte) : option (list byte) :=
  if decide (List.length priv = PrivateKeySize)
  then Some (drop 32 priv ++ message)
  else None.

Definition verify (pub message sig : list byte) : option bool :=
  if decide (List.length pub = PublicKeySize)
  then Some (bool_decide (sig = pub ++ message))
  else None.

Definition keypair (pub priv : list byte) : Prop :=
  List.length pub = 32%nat ∧ List.length priv = 64%nat ∧ drop 32 priv = pub.

Definition digits2 (n : nat) : string :=
  String (ascii_of_nat (48 + n `div` 10))
    (String (ascii_of_nat (48 + n `mod` 10)) EmptyString).

(** Seconds of the first day of the epoch. *)
Definition rfc3339 (t : Time) : string :=
  let s := Z.to_nat (t `mod` 86400) in
  ("1970-01-01T" ++ digits2 (s `div` 3600) ++ ":"
     ++ digits2 ((s `div` 60) `mod` 60) ++ ":" ++ digits2 (s `mod` 60) ++ "Z")%string.

Definition prims : Primitives :=
  {| sha3_Sum512 := pad64;
     json_Marshal := marshal;
     ed25519_Sign := sign;
     ed25519_Verify := verify;
     ed25519_keypair := keypair;
     time_RFC3339 := rfc3339 |}.

Definition pub : list byte := replicate 32 Byte.x07.
Definition priv : list byte := replicate 32 Byte.x01 ++ pub.

(** [E1]: an event without parents; [E2]: its child. *)
Definition created (eventType description : string) (parents : list string)
    (now : Time) : Event :=
  match (CreateEvent prims eventType description (Some ∅) parents pub priv now New).1 with
  | Ok e => e
  | _ => unsigned_event prims eventType description (Some ∅) parents pub now
  end.

Definition E1 : Event := created "init" "first" [] 1.
Definition E2 : Event := created "state_change" "second" [hash_of prims E1] 2.

(** [E1] with other parents: the same payload, signed alike. *)
Definition E1' : Event := created "init" "first" [hash_of prims E2] 1.


(** [E1] with an author key, or a signature, that is not hex, and with
    the signature of another event. *)
Definition badkey : Event :=
  {| Data := Data E1; Parents := Parents E1;
     Signature := Signature E1; AuthorPubKey := "zz" |}.

(** Two events whose parent links form a cycle, the second of which
    also names itself: a hash does not depend on the parents, so it is
    known before the event that carries it is made. *)
Definition hashB : string :=
  hash_of prims (unsigned_event prims "b" "second of the cycle" (Some ∅) [] pub 2).
Definition CA : Event := created "a" "first of the cycle" [hashB] 1.
Definition CB : Event :=
  created "b" "second of the cycle" [hash_of prims CA; hashB] 2.

(** The store after a sequence of calls of [AddEvent] on [New]. *)
Definition after (calls : list (Event * Time)) : Blockchain :=
  (AddEvents prims calls New).2.

Definition S1 : Blockchain := after [(E1, 10)].
Definition S12 : Blockchain := after [(E1, 10); (E2, 20)].
Definition S11' : Blockchain := after [(E1, 10); (E1', 20)].
Definition Scycle : Blockchain := after [(CA, 10); (CB, 20)].

End Model.


(** ** internal/config

    [time.Duration] is a number of nanoseconds ([int64]); [float64] is
    Rocq's primitive binary64 float.  [os.ReadFile] and [yaml.Unmarshal]
    are arguments of [Load]: each returns its error or its result, the
    result of [yaml.Unmarshal] being the zero [Config] with the fields of
    the file filled in. *)

Module config.

Import PrimFloat.

Definition Second : Z := 1000000000.

Record AgentConfig : Type := mkAgentConfig {
  DecisionInterval : Z;
  MaxEventChain : Z;
}.

Record LLMConfig : Type := mkLLMConfig {
  APIEndpoint : string;
  APIKey : string;
  Model : string;
  MaxTokens : Z;
  Temperature : PrimFloat.float;
  TimeoutSeconds : Z;
}.

Record Config : Type := mkConfig {
  Agent : AgentConfig;
  LLM : LLMConfig;
}.

(** The constant [0.7] as a [float64]. *)
Definition default_temperature : PrimFloat.float := 0x1.6666666666666p-1%float.

(** [applyDefaults]: each zero field gets its default; a test reads the
    field it sets and no other. *)
Definition applyDefaults (c : Config) : Config :=
  {| Agent :=
       {| DecisionInterval :=
            if DecisionInterval (Agent c) =? 0 then 30 * Second
            else DecisionInterval (Agent c);
          MaxEventChain :=
            if MaxEventChain (Agent c) =? 0 then 100
            else MaxEventChain (Agent c) |};
     LLM :=
       {| APIEndpoint := APIEndpoint (LLM c);
          APIKey := APIKey (LLM c);
          Model :=
            if decide (Model (LLM c) = EmptyString) then "llama3.2"
            else Model (LLM c);
          MaxTokens :=
            if MaxTokens (LLM c) =? 0 then 150 else MaxTokens (LLM c);
          Temperature :=
            if PrimFloat.eqb (Temperature (LLM c)) 0%float then default_temperature
            else Temperature (LLM c);
          TimeoutSeconds :=
            if TimeoutSeconds (LLM c) =? 0 then 30
            else TimeoutSeconds (LLM c) |} |}.

Inductive validate_error : Type :=
| EndpointRequired        (* "llm.api_endpoint is required" *)
| IntervalTooShort        (* "agent.decision_interval must be at least 1 second" *)
| MaxTokensTooSmall       (* "llm.max_tokens must be at least 10" *)
| TemperatureOutOfRange.  (* "llm.temperature must be between 0 and 2" *)

(** [validate]: [None] is the nil error. *)
Definition validate (c : Config) : option validate_error :=
  if decide (APIEndpoint (LLM c) = EmptyString) then Some EndpointRequired
  else if DecisionInterval (Agent c) <? Second then Some IntervalTooShort
  else if MaxTokens (LLM c) <? 10 then Some MaxTokensTooSmall
  else if PrimFloat.ltb (Temperature (LLM c)) 0%float
          || PrimFloat.ltb 2%float (Temperature (LLM c))
       then Some TemperatureOutOfRange
  else None.

Inductive load_error : Type :=
| ReadFailed (e : string)            (* "failed to read config file: %w" *)
| ParseFailed (e : string)           (* "failed to parse config file: %w" *)
| InvalidConfiguration (e : validate_error).  (* "invalid configuration: %w" *)

Definition Load (ReadFile : string → string + list byte)
    (Unmarshal : list byte → string + Config) (path : string)
    : load_error + Config :=
  match ReadFile path with
  | inl err => inl (ReadFailed err)
  | inr data =>
      match Unmarshal data with
      | inl err => inl (ParseFailed err)
      | inr cfg =>
          let cfg := applyDefaults cfg in
          match validate cfg with
          | Some err => inl (InvalidConfiguration err)
          | None => inr cfg
          end
      end
  end.

Definition Example : Config :=
  {| Agent := {| DecisionInterval := 30 * Second; MaxEventChain := 100 |};
     LLM := {| APIEndpoint := "http://localhost:11434/v1/completions";
               APIKey := EmptyString;
               Model := "llama3.2";
               MaxTokens := 150;
               Temperature := default_temperature;
               TimeoutSeconds := 30 |} |}.

(** The zero [Config] with an endpoint: what a file that sets
    [llm.api_endpoint] and nothing else decodes to. *)
Definition only_endpoint (endpoint : string) : Config :=
  {| Agent := {| DecisionInterval := 0; MaxEventChain := 0 |};
     LLM := {| APIEndpoint := endpoint;
               APIKey := EmptyString;
               Model := EmptyString;
               MaxTokens := 0;
               Temperature := 0%float;
               TimeoutSeconds := 0 |} |}.

End config.

(** ** internal/llm: the client and its constructor

    Of [http.Client] the model keeps the [Timeout]. *)

Module llm.

Record Client : Type := mkClient {
  client_config : config.LLMConfig;
  Timeout : Z;
}.

(** [NewClient]: the only error is "LLM API endpoint is required".
    [time.Duration(cfg.TimeoutSeconds) * time.Second] is a product of
    [int64]s and wraps around. *)
Definition NewClient (cfg : config.LLMConfig) : option Client :=
  if decide (config.APIEndpoint cfg = EmptyString) then None
  else Some {| client_config := cfg;
               Timeout := int_wrap (config.TimeoutSeconds cfg * config.Second) |}.

End llm.

(** ** internal/agent

    An [Agent] is modelled by its key pair and its [lastEvent]; its
    [blockchain] is the store that the methods run on.  A method returns
    its result, the agent and the store.  [llmClient.GetCompletion], which
    talks to the network, is an argument [completion] of [MakeDecision]:
    it maps the prompt to an error or to the completion text.  The two
    [range] loops over maps take their order of visit as arguments, and
    [format_local] is [t.Format(time.RFC3339)] in the local zone. *)

Module agent.

Record Agent : Type := mkAgent {
  pubKey : list byte;
  privKey : list byte;
  lastEvent : string;
}.

Global Instance Agent_eq_dec : EqDecision Agent.
Proof. solve_decision. Defined.

(** [New], given the key pair that [ed25519.GenerateKey] returned. *)
Definition New (pub priv : list byte) : Agent :=
  {| pubKey := pub; privKey := priv; lastEvent := EmptyString |}.

Definition PublicKeyHex (a : Agent) : string :=
  hex.EncodeToString (pubKey a).

Definition set_lastEvent (a : Agent) (h : string) : Agent :=
  {| pubKey := pubKey a; privKey := privKey a; lastEvent := h |}.

Inductive failure : Type :=
| CreateInitialFailed (e : error)   (* "failed to create initial event: %w" *)
| AddInitialFailed (e : error)      (* "failed to add initial event: %w" *)
| CreateFailed (e : error)          (* "failed to create event: %w" *)
| AddFailed (e : error)             (* "failed to add event: %w" *)
| LLMFailed (e : string)            (* "failed to get LLM decision: %w" *)
| DecisionEventFailed (e : failure). (* "failed to create decision event: %w" *)

Inductive result (A : Type) : Type :=
| Done (a : A)
| Failed (e : failure)
| Panicked (msg : string).
Arguments Done {A} a.
Arguments Failed {A} e.
Arguments Panicked {A} msg.

Global Instance failure_eq_dec : EqDecision failure.
Proof. solve_decision. Defined.
Global Instance result_eq_dec {A} `{EqDecision A} : EqDecision (result A).
Proof. solve_decision. Defined.

Definition is_Done {A} (r : result A) : bool :=
  match r with Done _ => true | _ => false end.

(** The slice expression [s[:n]] on a string: it panics unless
    [n <= len(s)]; [None] is the panic. *)
Definition slice_to (s : string) (n : nat) : option string :=
  if (n <=? String.length s)%nat then Some (String.substring 0 n s) else None.

Definition initial_payload (agent_id : string) : gmap string string :=
  {[ "agent_id" := agent_id; "state" := "active"; "version" := "1.0.0" ]}.

Definition decision_payload (agent_id : string) : gmap string string :=
  {[ "agent_id" := agent_id; "action" := "llm_decision" ]}.

(** [fmt.Sprintf("%d", n)] for a length or an index. *)
Definition itoa (n : nat) : string := pretty n.

Definition nl : string := String (ascii_of_nat 10) EmptyString.

Record Stats : Type := mkStats {
  public_key : string;
  last_event_hash : string;
  total_events : nat;
  known_agents : nat;
}.

Global Instance Stats_eq_dec : EqDecision Stats.
Proof. solve_decision. Defined.

Section Methods.

Context (P : Primitives).

(** The common part of [CreateInitialEvent] and [createDecisionEvent]:
    create the event, add it, and set [lastEvent] to its hash; [now] and
    [now'] are the clock readings of [CreateEvent] and of [AddEvent]. *)
Definition create_and_add (wrapCreate wrapAdd : error → failure)
    (eventType description : string) (payload : gmap string string)
    (parents : list string) (a : Agent) (now now' : Time) (bc : Blockchain)
    : result unit * Agent * Blockchain :=
  match CreateEvent P eventType description (Some payload) parents
          (pubKey a) (privKey a) now bc with
  | (Err err, bc1) => (Failed (wrapCreate err), a, bc1)
  | (Panic msg, bc1) => (Panicked msg, a, bc1)
  | (Ok event, bc1) =>
      match AddEvent P event now' bc1 with
      | (Err err, bc2) => (Failed (wrapAdd err), a, bc2)
      | (Panic msg, bc2) => (Panicked msg, a, bc2)
      | (Ok _, bc2) => (Done tt, set_lastEvent a (hash_of P event), bc2)
      end
  end.

Definition CreateInitialEvent (a : Agent) (now now' : Time) (bc : Blockchain)
    : result unit * Agent * Blockchain :=
  match slice_to (PublicKeyHex a) 16 with
  | None => (Panicked "slice bounds out of range", a, bc)
  | Some agent_id =>
      create_and_add CreateInitialFailed AddInitialFailed
        "initialization" "Agent initialization in Blockchain Universe"
        (initial_payload agent_id) [] a now now' bc
  end.

Definition createDecisionEvent (decision : string) (a : Agent)
    (now now' : Time) (bc : Blockchain) : result unit * Agent * Blockchain :=
  let parents :=
    if decide (lastEvent a = EmptyString) then [] else [lastEvent a] in
  match slice_to (PublicKeyHex a) 16 with
  | None => (Panicked "slice bounds out of range", a, bc)
  | Some agent_id =>
      create_and_add CreateFailed AddFailed
        "state_change" decision (decision_payload agent_id) parents
        a now now' bc
  end.

Context (range : gmap string Event → list Event)
        (range_agents : gmap string AgentInfo → list (string * AgentInfo))
        (format_local : Time → string).

(** One pass of the first loop of [buildPrompt]. *)
Definition event_line (i : nat) (event : Event) : string :=
  (itoa (i + 1) ++ ". [" ++ Type_ (Data event) ++ "] "
   ++ Description (Data event) ++ " - " ++ Timestamp (Data event) ++ nl)%string.

(** The second loop of [buildPrompt]; [None] when [pubKey[:16]] panics. *)
Fixpoint agent_lines (entries : list (string * AgentInfo)) (prompt : string)
    : option string :=
  match entries with
  | [] => Some prompt
  | (pubKey, info) :: rest =>
      match slice_to pubKey 16 with
      | None => None
      | Some short =>
          agent_lines rest
            (prompt ++ "- Agent " ++ short ++ " (last seen: "
             ++ format_local (LastSeen info) ++ ")" ++ nl)%string
      end
  end.

Definition buildPrompt (a : Agent) : St string :=
  recentEvents <- GetRecentEvents range 5 ;;
  agents <- GetAgents ;;
  let prompt := ("Current Blockchain Universe state:" ++ nl ++ nl)%string in
  let prompt :=
    (prompt ++ "Recent events (" ++ itoa (List.length recentEvents) ++ "):"
     ++ nl)%string in
  let prompt :=
    foldl (λ prompt ie, (prompt ++ event_line ie.1 ie.2)%string)
          prompt (imap pair recentEvents) in
  let prompt :=
    (prompt ++ nl ++ "Known agents (" ++ itoa (size agents) ++ "):" ++ nl)%string in
  prompt <- call (agent_lines (range_agents agents) prompt)
                 "slice bounds out of range" ;;
  let prompt :=
    if decide (lastEvent a = EmptyString) then prompt
    else (prompt ++ nl ++ "My last event hash: " ++ lastEvent a ++ nl)%string in
  ret (prompt ++ nl
       ++ "What should be the next event in the Blockchain Universe? "
       ++ "Provide a brief description (max 100 characters) for the event.")%string.

Definition MakeDecision (completion : string → string + string) (a : Agent)
    (now now' : Time) (bc : Blockchain) : result unit * Agent * Blockchain :=
  match buildPrompt a bc with
  | (Panic msg, bc1) => (Panicked msg, a, bc1)
  | (Err err, bc1) =>
      (* [buildPrompt] returns a string: it has no error to return, and
         its model is shown below to return none *)
      (Panicked "buildPrompt: no error", a, bc1)
  | (Ok prompt, bc1) =>
      match completion prompt with
      | inl err => (Failed (LLMFailed err), a, bc1)
      | inr decision =>
          match createDecisionEvent decision a now now' bc1 with
          | (Failed err, a', bc2) => (Failed (DecisionEventFailed err), a', bc2)
          | r => r
          end
      end
  end.

Definition GetStats (a : Agent) : St Stats :=
  recent <- GetRecentEvents range 1000 ;;
  agents <- GetAgents ;;
  ret {| public_key := PublicKeyHex a;
         last_event_hash := lastEvent a;
         total_events := List.length recent;
         known_agents := size agents |}.

(** The calls of [main] on the agent after [CreateInitialEvent]: one
    [MakeDecision] at every tick, whose error is logged, the loop going
    on.  A tick is the answer of the LLM with the two clock readings;
    [None] is a panic, which ends the program. *)
Record Tick : Type := mkTick {
  tick_completion : string → string + string;
  tick_created : Time;
  tick_added : Time;
}.

Definition logged (res : result unit * Agent * Blockchain)
    : option (Agent * Blockchain) :=
  match res with
  | (Panicked _, _, _) => None
  | (_, a, bc) => Some (a, bc)
  end.

Fixpoint decision_loop (ticks : list Tick) (a : Agent) (bc : Blockchain)
    : option (Agent * Blockchain) :=
  match ticks with
  | [] => Some (a, bc)
  | t :: rest =>
      match logged (MakeDecision (tick_completion t) a
                      (tick_created t) (tick_added t) bc) with
      | None => None
      | Some (a1, bc1) => decision_loop rest a1 bc1
      end
  end.

End Methods.

End agent.

(** [main], from [blockchain.New] and [agent.New] on: the initial event,
    whose error is logged as well, and the decision loop. *)
Definition main_calls (P : Primitives)
    (range : gmap string Event → list Event)
    (range_agents : gmap string AgentInfo → list (string * AgentInfo))
    (format_local : Time → string) (pub priv : list byte)
    (now now' : Time) (ticks : list agent.Tick)
    : option (agent.Agent * Blockchain) :=
  match agent.logged
          (agent.CreateInitialEvent P (agent.New pub priv) now now' New) with
  | None => None
  | Some (a1, bc1) =>
      agent.decision_loop P range range_agents format_local ticks a1 bc1
  end.

(** How a method of the agent ends, whatever the keys: with an event
    accepted and [lastEvent] set to its hash, or with the agent and the
    store as they were. *)
Definition ends_well (P : Primitives) (a : agent.Agent) (now' : Time) (bc : Blockchain)
    (res : agent.result unit * agent.Agent * Blockchain) : Prop :=
  (∃ e, res = (agent.Done tt, agent.set_lastEvent a (hash_of P e),
               accepted P e now' bc)
        ∧ verdict P e = Ok tt
        ∧ AuthorPubKey e = agent.PublicKeyHex a)
  ∨ (∃ r, res = (r, a, bc) ∧ agent.is_Done r = false
          ∧ ∀ err, r ≠ agent.Failed (agent.CreateInitialFailed err)
                   ∧ r ≠ agent.Failed (agent.CreateFailed err)
                   ∧ r ≠ agent.Failed (agent.DecisionEventFailed
                                         (agent.CreateFailed err))).

(** An order of visit of the registry. *)
Definition range_agents_order
    (range_agents : gmap string AgentInfo → list (string * AgentInfo)) : Prop :=
  ∀ m, range_agents m ≡ₚ map_to_list m.

(** A file system with one path, and a decoder of its contents: the
    file sets the endpoint only. *)
Module Files.

Definition path : string := "config.yaml".
Definition endpoint : string := "http://localhost:11434/v1/completions".

Definition ReadFile (p : string) : string + list byte :=
  if decide (p = path) then inr (list_byte_of_string "llm: {api_endpoint: ...}")
  else inl "open: no such file or directory"%string.

Definition Unmarshal (data : list byte) : string + config.Config :=
  inr (config.only_endpoint endpoint).

End Files.

(** * Properties *)

(** A decidable statement about closed terms, settled by evaluation. *)
Ltac by_evaluation :=
  apply (bool_decide_unpack _); vm_compute; exact I.

(** ** encoding/hex: decoding undoes encoding *)

Lemma hex_digit_roundtrip (b : byte) :
  hex.fromHexChar (hex.digit (N.shiftr (Byte.to_N b) 4))
    = Some (N.shiftr (Byte.to_N b) 4)
  ∧ hex.fromHexChar (hex.digit (N.land (Byte.to_N b) 15))
    = Some (N.land (Byte.to_N b) 15)
  ∧ hex.mkbyte (N.shiftr (Byte.to_N b) 4) (N.land (Byte.to_N b) 15) = b.
Proof. destruct b; repeat split; vm_compute; reflexivity. Qed.

Lemma hex_Decode_Encode (bs : list byte) :
  hex.DecodeString (hex.EncodeToString bs) = inr bs.
Proof.
  induction bs as [|b bs IH]; [reflexivity|].
  destruct (hex_digit_roundtrip b) as (Hhi & Hlo & Hb).
  cbn [hex.EncodeToString hex.DecodeString].
  rewrite Hhi, Hlo, IH, Hb. reflexivity.
Qed.

(** ** The model satisfies the assumptions on the primitives *)

Lemma Model_pub_priv : Model.keypair Model.pub Model.priv.
Proof. repeat split. Qed.

Lemma Model_contract : ed25519_contract Model.prims.
Proof.
  split; cbn; unfold Model.sign, Model.verify, Model.keypair.
  - intros priv message Hne. case_decide; [done|reflexivity].
  - intros pub message sig Hne. case_decide; [done|reflexivity].
  - intros pub message sig Heq. case_decide; [eauto|done].
  - intros pub priv (Hpub & _ & _). exact Hpub.
  - intros pub priv message (Hpub & Hpriv & Hdrop).
    exists (pub ++ message). rewrite Hdrop.
    rewrite !decide_True by done. split; [reflexivity|].
    by rewrite bool_decide_eq_true_2.
Qed.


(** ** The methods, run *)

Section Methods.

Context (P : Primitives).

Lemma HashEvent_run e bc : HashEvent P e bc = (Ok (hash_of P e), bc).
Proof. reflexivity. Qed.

Lemma hash_of_Data e e' : Data e = Data e' → hash_of P e = hash_of P e'.
Proof. unfold hash_of. by intros ->. Qed.

Lemma signEvent_run e priv bc :
  signEvent P e priv bc =
    (match ed25519_Sign P priv (list_byte_of_string (hash_of P e)) with
     | Some sig => Ok (hex.EncodeToString sig)
     | None => Panic "ed25519: bad private key"
     end, bc).
Proof.
  unfold signEvent, bind. rewrite HashEvent_run. fold (hash_of P e).
  by destruct (ed25519_Sign _ _ _).
Qed.

Lemma verifyEvent_run e bc : verifyEvent P e bc = (verdict P e, bc).
Proof.
  unfold verdict, verifyEvent.
  destruct (hex.DecodeString (AuthorPubKey e)); [reflexivity|].
  destruct (hex.DecodeString (Signature e)); [reflexivity|].
  unfold bind. rewrite !HashEvent_run.
  destruct (ed25519_Verify _ _ _ _) as [[]|]; reflexivity.
Qed.

Lemma AddEvent_run e now bc :
  AddEvent P e now bc =
    match verdict P e with
    | Ok _ => (Ok tt, accepted P e now bc)
    | Err err => (Err (EventVerificationFailed err), bc)
    | Panic msg => (Panic msg, bc)
    end.
Proof.
  unfold AddEvent, bind, wrapErr. rewrite verifyEvent_run.
  destruct (verdict P e); reflexivity.
Qed.

Lemma AddEvent_Ok_inv e now bc u bc' :
  AddEvent P e now bc = (Ok u, bc') →
  verdict P e = Ok tt ∧ bc' = accepted P e now bc.
Proof.
  rewrite AddEvent_run. destruct (verdict P e) as [[]| |]; [|done..].
  by intros [= _ <-].
Qed.

Lemma CreateEvent_run eventType description payload parents pub priv now bc :
  let event := unsigned_event P eventType description payload parents pub now in
  CreateEvent P eventType description payload parents pub priv now bc =
    (match ed25519_Sign P priv (list_byte_of_string (hash_of P event)) with
     | Some sig => Ok (with_Signature event (hex.EncodeToString sig))
     | None => Panic "ed25519: bad private key"
     end, bc).
Proof.
  intros event. unfold CreateEvent, bind, wrapErr. fold event.
  rewrite signEvent_run. by destruct (ed25519_Sign _ _ _).
Qed.

(** When [ed25519.Verify] panics, [AddEvent] has not written the store. *)
Lemma AddEvent_panic_leaves_store e now bc msg :
  (AddEvent P e now bc).1 = Panic msg → (AddEvent P e now bc).2 = bc.
Proof. rewrite AddEvent_run. by destruct (verdict P e). Qed.

(** C4. Whenever [AddEvent] returns an error, the store is the one
    before the call: the [events] map and the [agents] map are unchanged,
    so the rejected event has not entered [events] and no [AgentInfo]
    has been created or updated.  The error is the verification error. *)
Theorem AddEvent_error_leaves_store (e : Event) (now : Time) (bc : Blockchain)
    (err : error) :
  (AddEvent P e now bc).1 = Err err →
  (AddEvent P e now bc).2 = bc
  ∧ events (AddEvent P e now bc).2 = events bc
  ∧ agents (AddEvent P e now bc).2 = agents bc
  ∧ ∃ cause, err = EventVerificationFailed cause
             ∧ (verifyEvent P e bc).1 = Err cause.
Proof.
  rewrite verifyEvent_run, AddEvent_run.
  destruct (verdict P e) as [|cause|]; cbn; [done| |done].
  intros [= <-]. repeat split. by exists cause.
Qed.

(** C8. [CreateEvent] is pure with respect to the store: the store after
    the call is the store before it, the result is the same on every
    store, and [CreateEvent] returns an error exactly when the signing
    step [signEvent] does. *)
Theorem CreateEvent_pure eventType description payload parents pub priv now :
  ∀ bc : Blockchain,
    let call_ := CreateEvent P eventType description payload parents pub priv now in
    (call_ bc).2 = bc
    ∧ events (call_ bc).2 = events bc
    ∧ agents (call_ bc).2 = agents bc
    ∧ (∀ bc', (call_ bc').1 = (call_ bc).1)
    ∧ is_Err (call_ bc).1 =
        is_Err (signEvent P
                  (unsigned_event P eventType description payload parents pub now)
                  priv bc).1.
Proof.
  intros bc call_. unfold call_.
  rewrite signEvent_run. repeat split; try (intros bc');
    rewrite !CreateEvent_run; cbn; try reflexivity.
  by destruct (ed25519_Sign _ _ _).
Qed.

(** C2. The hash of an event is computed over its payload [Data] alone:
    two events with the same payload have the same hash, whatever their
    parents, author and signature; and when [AddEvent] accepts both,
    the second is stored under that hash in place of the first. *)
Theorem same_payload_same_hash (e1 e2 : Event) :
  Data e1 = Data e2 →
  hash_of P e1 = hash_of P e2
  ∧ (∀ bc, (HashEvent P e1 bc).1 = (HashEvent P e2 bc).1)
  ∧ ∀ bc now1 now2 bc1 bc2,
      AddEvent P e1 now1 bc = (Ok tt, bc1) →
      AddEvent P e2 now2 bc1 = (Ok tt, bc2) →
      GetEvent (hash_of P e1) bc1 = (Ok (Some e1), bc1)
      ∧ GetEvent (hash_of P e1) bc2 = (Ok (Some e2), bc2)
      ∧ dom (events bc2) = dom (events bc1).
Proof.
  intros HD. pose proof (hash_of_Data _ _ HD) as Hh.
  split; [exact Hh|]. split.
  { intros bc. by rewrite !HashEvent_run, Hh. }
  intros bc now1 now2 bc1 bc2 [_ ->]%AddEvent_Ok_inv [_ ->]%AddEvent_Ok_inv.
  unfold GetEvent, gets, accepted; cbn. rewrite <- Hh.
  rewrite !lookup_insert_eq. repeat split.
  rewrite !dom_insert_L. by rewrite (assoc_L (∪)), (idemp_L (∪)).
Qed.

(** C6. An event made by [CreateEvent] with a generated key pair is
    accepted by [AddEvent] as it is, and [GetEvent] on its hash then
    finds it: the event returned is the created one, so its payload is
    the created payload. *)
Theorem created_event_accepted :
  ed25519_contract P →
  ∀ eventType description payload parents pub priv now bc,
    ed25519_keypair P pub priv →
    ∃ e, CreateEvent P eventType description payload parents pub priv now bc
           = (Ok e, bc)
         ∧ ∀ bc0 now',
             ∃ bc1, AddEvent P e now' bc0 = (Ok tt, bc1)
                    ∧ GetEvent (hash_of P e) bc1 = (Ok (Some e), bc1)
                    ∧ ∀ e', (GetEvent (hash_of P e) bc1).1 = Ok (Some e') →
                            Data e' = Data e.
Proof.
  intros HC eventType description payload parents pub priv now bc Hkp.
  set (ue := unsigned_event P eventType description payload parents pub now).
  destruct (sign_verify P HC pub priv (list_byte_of_string (hash_of P ue)) Hkp)
    as (sig & Hsig & Hver).
  exists (with_Signature ue (hex.EncodeToString sig)). split.
  { rewrite CreateEvent_run. fold ue. by rewrite Hsig. }
  intros bc0 now'. eexists. rewrite AddEvent_run.
  assert (verdict P (with_Signature ue (hex.EncodeToString sig)) = Ok tt) as ->.
  { unfold verdict, verifyEvent; cbn. rewrite !hex_Decode_Encode.
    unfold bind. rewrite HashEvent_run.
    replace (hash_of P (with_Signature ue (hex.EncodeToString sig)))
      with (hash_of P ue) by reflexivity.
    by rewrite Hver. }
  split; [reflexivity|].
  unfold GetEvent, gets, accepted; cbn. rewrite lookup_insert_eq.
  split; [reflexivity|]. by intros e' [= <-].
Qed.

(** An author key that is hex but not [PublicKeySize] bytes long makes
    [ed25519.Verify], and with it [AddEvent], panic. *)
Lemma AddEvent_key_length_panics e pk sg now bc :
  ed25519_contract P →
  hex.DecodeString (AuthorPubKey e) = inr pk →
  hex.DecodeString (Signature e) = inr sg →
  List.length pk ≠ PublicKeySize →
  AddEvent P e now bc = (Panic "ed25519: bad public key length", bc).
Proof.
  intros HC Hpk Hsg Hlen. rewrite AddEvent_run.
  unfold verdict, verifyEvent. rewrite Hpk, Hsg. unfold bind.
  rewrite HashEvent_run. by rewrite (verify_key_size P HC).
Qed.


(** C10, as amended. [CreateEvent] never returns an error, because
    [signEvent] never does: whenever [CreateEvent] returns, its error is
    nil and the event carries the payload, the parents, the hex public
    key and the hex signature of the payload hash.  It returns whenever
    [ed25519.Sign] does, which includes every generated key pair; on a
    private key that is not [PrivateKeySize] bytes long [ed25519.Sign]
    panics, and so does [CreateEvent]. *)
Theorem CreateEvent_never_errors :
  ed25519_contract P →
  ∀ eventType description payload parents pub priv now bc,
    let call_ := CreateEvent P eventType description payload parents pub priv now in
    let event := unsigned_event P eventType description payload parents pub now in
    is_Err (call_ bc).1 = false
    ∧ is_Err (signEvent P event priv bc).1 = false
    ∧ (∀ sig,
         ed25519_Sign P priv (list_byte_of_string (hash_of P event)) = Some sig →
         call_ bc =
           (Ok {| Data := {| Type_ := eventType;
                             Description := description;
                             Payload := payload;
                             Timestamp := time_RFC3339 P now |};
                  Parents := parents;
                  Signature := hex.EncodeToString sig;
                  AuthorPubKey := hex.EncodeToString pub |}, bc))
    ∧ (ed25519_keypair P pub priv → is_Ok (call_ bc).1 = true)
    ∧ (List.length priv ≠ PrivateKeySize → is_Panic (call_ bc).1 = true).
Proof.
  intros HC eventType description payload parents pub priv now bc call_ event.
  unfold call_. rewrite signEvent_run, CreateEvent_run. fold event. cbn.
  repeat split.
  - by destruct (ed25519_Sign _ _ _).
  - by destruct (ed25519_Sign _ _ _).
  - by intros sig ->.
  - intros Hkp.
    by destruct (sign_verify P HC pub priv
                   (list_byte_of_string (hash_of P event)) Hkp) as (sig & -> & _).
  - intros Hlen. by rewrite (sign_key_size P HC).
Qed.

(** *** The agent registry *)

Lemma AddEvents_Ok_inv calls bc0 u bc :
  AddEvents P calls bc0 = (Ok u, bc) →
  bc = foldl (λ b c, accepted P c.1 c.2 b) bc0 calls
  ∧ Forall (λ c, verdict P c.1 = Ok tt) calls.
Proof.
  revert bc0. induction calls as [|[e now] calls IH]; intros bc0; cbn.
  - by intros [= _ <-].
  - unfold bind. rewrite AddEvent_run.
    destruct (verdict P e) as [[]| |] eqn:Hv; [|done..].
    intros [-> Hall]%IH. split; [reflexivity|]. by constructor.
Qed.


Lemma accepted_events_wf e now bc : events_wf P bc → events_wf P (accepted P e now bc).
Proof.
  intros Hwf h e'; cbn. rewrite lookup_insert.
  case_decide as Hk; [by intros [= <-]|]. apply Hwf.
Qed.


Lemma AddEvent_events_wf e now bc :
  events_wf P bc → events_wf P (AddEvent P e now bc).2.
Proof.
  intros Hwf. rewrite AddEvent_run.
  destruct (verdict P e); cbn; [by apply accepted_events_wf|done..].
Qed.

(** Every store built from [New] by [AddEvent] is keyed by payload hash. *)
Lemma AddEvents_events_wf calls bc :
  events_wf P bc → events_wf P (AddEvents P calls bc).2.
Proof.
  revert bc. induction calls as [|[e now] calls IH]; intros bc Hwf; [done|].
  cbn. unfold bind.
  pose proof (AddEvent_events_wf e now bc Hwf) as Hwf'.
  destruct (AddEvent P e now bc) as [[[]| |] bc1]; cbn in *; [by apply IH|done..].
Qed.

Lemma New_events_wf : events_wf P New.
Proof. intros h e; cbn. by rewrite lookup_empty. Qed.





End Methods.

(** ** The traversal of [GetEventChain] *)

Section Chain.

Context (evs : gmap string Event) (maxDepth : Z).

Lemma visit_parents_None visit depth ps : visit_parents visit depth None ps = None.
Proof. induction ps as [|p ps IH]; [reflexivity|exact IH]. Qed.

Lemma visit_parents_cons visit depth st p ps :
  visit_parents visit depth (Some st) (p :: ps)
  = visit_parents visit depth (visit p depth st) ps.
Proof. reflexivity. Qed.

Lemma traverse_unfold fuel h depth st :
  traverse evs maxDepth (S fuel) h depth st =
    if (depth >=? maxDepth) || bool_decide (h ∈ st.2) then Some st
    else match evs !! h with
         | None => Some st
         | Some event =>
             visit_parents (traverse evs maxDepth fuel) (depth + 1)
               (Some (st.1 ++ [event], {[h]} ∪ st.2)) (Parents event)
         end.
Proof. reflexivity. Qed.

Lemma reach_prepend h e p n k :
  evs !! h = Some e → p ∈ Parents e → reach evs p n k → reach evs h (S n) k.
Proof.
  intros He Hp Hr. induction Hr as [|n h' e' p' _ IH He' Hp'].
  - eapply reach_hop; [apply reach_here|exact He|exact Hp].
  - eapply reach_hop; [exact IH|exact He'|exact Hp'].
Qed.

Lemma visit_log_snoc hashes st h e :
  visit_log evs hashes st → h ∉ st.2 → evs !! h = Some e →
  visit_log evs (hashes ++ [h]) (st.1 ++ [e], {[h]} ∪ st.2).
Proof.
  intros (Hnd & Hset & Hall) Hh He. split; [|split]; cbn.
  - apply NoDup_app. split; [exact Hnd|]. split; [|apply NoDup_singleton].
    intros x Hx ->%list_elem_of_singleton. apply Hh. rewrite Hset.
    by apply elem_of_list_to_set.
  - rewrite Hset, list_to_set_app_L. cbn.
    by rewrite (right_id_L ∅ (∪)), (comm_L (∪)).
  - apply Forall2_app; [exact Hall|]. by repeat constructor.
Qed.

(** With more fuel than levels left, [traverse] returns, and what it
    adds to the log lies within the depth bound. *)
Lemma traverse_returns fuel : ∀ h depth st hashes,
  visit_log evs hashes st →
  (Z.to_nat (maxDepth - depth) < fuel)%nat →
  ∃ new st',
    traverse evs maxDepth fuel h depth st = Some st'
    ∧ visit_log evs (hashes ++ new) st'
    ∧ (∀ k, k ∈ new → ∃ n, reach evs h n k ∧ depth + Z.of_nat n < maxDepth)
    ∧ (depth < maxDepth → h ∉ st.2 → is_Some (evs !! h) →
       ∃ rest, new = h :: rest).
Proof.
  induction fuel as [|fuel IH]; intros h depth st hashes Hlog Hfuel; [lia|].
  rewrite traverse_unfold.
  assert (Hnone : ¬ (depth < maxDepth ∧ (h ∉ st.2) ∧ is_Some (evs !! h)) →
    ∃ new st',
      Some st = Some st'
      ∧ visit_log evs (hashes ++ new) st'
      ∧ (∀ k, k ∈ new → ∃ n, reach evs h n k ∧ depth + Z.of_nat n < maxDepth)
      ∧ (depth < maxDepth → h ∉ st.2 → is_Some (evs !! h) →
         ∃ rest, new = h :: rest)).
  { intros Hnot. exists [], st. rewrite app_nil_r.
    split; [reflexivity|]. split; [exact Hlog|]. split.
    - intros k Hk. by apply elem_of_nil in Hk.
    - intros H1 H2 H3. by destruct Hnot. }
  destruct (depth >=? maxDepth) eqn:Hd; cbn [orb].
  { apply Hnone. apply Z.geb_le in Hd. lia. }
  rewrite Z.geb_leb in Hd. apply Z.leb_gt in Hd.
  destruct (bool_decide (h ∈ st.2)) eqn:Hv.
  { apply Hnone. apply bool_decide_eq_true_1 in Hv. tauto. }
  apply bool_decide_eq_false_1 in Hv.
  destruct (evs !! h) as [e|] eqn:He.
  2:{ apply Hnone. intros (_ & _ & [? ?]). done. }
  clear Hnone.
  pose proof (visit_log_snoc _ _ _ _ Hlog Hv He) as Hlog1.
  assert (Hps : ∀ ps st1 hashes1,
    (∀ p, p ∈ ps → p ∈ Parents e) →
    visit_log evs hashes1 st1 →
    ∃ new st',
      visit_parents (traverse evs maxDepth fuel) (depth + 1) (Some st1) ps = Some st'
      ∧ visit_log evs (hashes1 ++ new) st'
      ∧ ∀ k, k ∈ new → ∃ n, reach evs h n k ∧ depth + Z.of_nat n < maxDepth).
  { induction ps as [|p ps IHps]; intros st1 hashes1 Hsub Hlog'.
    - exists [], st1. rewrite app_nil_r.
      split; [reflexivity|]. split; [exact Hlog'|].
      intros k Hk. by apply elem_of_nil in Hk.
    - rewrite !visit_parents_cons.
      destruct (IH p (depth + 1) st1 hashes1 Hlog' ltac:(lia))
        as (new1 & st2 & Hrun1 & Hlog2 & Hreach1 & _).
      rewrite Hrun1.
      destruct (IHps st2 (hashes1 ++ new1)) as (new2 & st3 & Hrun2 & Hlog3 & Hreach2).
      { intros q Hq. apply Hsub. by right. }
      { exact Hlog2. }
      exists (new1 ++ new2), st3. rewrite app_assoc.
      split; [exact Hrun2|]. split; [exact Hlog3|].
      intros k [Hk|Hk]%elem_of_app; [|by apply Hreach2].
      destruct (Hreach1 k Hk) as (n & Hr & Hn).
      exists (S n). split; [|lia].
      eapply reach_prepend; [exact He| |exact Hr]. apply Hsub. by left. }
  destruct (Hps (Parents e) _ _ (λ _ H, H) Hlog1) as (new & st' & Hrun & Hlog' & Hr).
  exists (h :: new), st'. rewrite <- app_assoc in Hlog'. cbn in Hlog'.
  split; [exact Hrun|]. split; [exact Hlog'|]. split; [|by eauto].
  intros k [->|Hk]%elem_of_cons; [|by apply Hr].
  exists 0%nat. split; [apply reach_here|lia].
Qed.

(** More fuel does not change what [traverse] returns. *)
Lemma traverse_fuel_mono fuel : ∀ fuel' h depth st st',
  (fuel ≤ fuel')%nat →
  traverse evs maxDepth fuel h depth st = Some st' →
  traverse evs maxDepth fuel' h depth st = Some st'.
Proof.
  induction fuel as [|fuel IH]; intros fuel' h depth st st' Hle; [done|].
  destruct fuel' as [|fuel']; [lia|].
  rewrite !traverse_unfold.
  destruct ((depth >=? maxDepth) || bool_decide (h ∈ st.2)); [done|].
  destruct (evs !! h) as [e|]; [|done].
  generalize (st.1 ++ [e], {[h]} ∪ st.2) as st1.
  induction (Parents e) as [|p ps IHps]; intros st1; [done|].
  rewrite !visit_parents_cons.
  destruct (traverse evs maxDepth fuel p (depth + 1) st1) as [st2|] eqn:Hp.
  - rewrite (IH fuel' _ _ _ _ ltac:(lia) Hp). apply IHps.
  - by rewrite visit_parents_None.
Qed.

(** [traverse] visits in the order of the stack-based search. *)
Lemma traverse_dfs_stack fuel : ∀ h depth st st',
  traverse evs maxDepth fuel h depth st = Some st' →
  ∀ waiting, ∃ n, ∀ gas r,
    dfs_stack evs maxDepth gas waiting st' = Some r →
    dfs_stack evs maxDepth (n + gas) ((h, depth) :: waiting) st = Some r.
Proof.
  induction fuel as [|fuel IH]; intros h depth st st' Hrun waiting; [done|].
  rewrite traverse_unfold in Hrun.
  destruct ((depth >=? maxDepth) || bool_decide (h ∈ st.2)) eqn:Hc.
  { injection Hrun as <-. exists 1%nat. intros gas r Hr. cbn. by rewrite Hc. }
  destruct (evs !! h) as [e|] eqn:He.
  2:{ injection Hrun as <-. exists 1%nat. intros gas r Hr. cbn.
      by rewrite Hc, He. }
  assert (Hps : ∀ ps st1,
    visit_parents (traverse evs maxDepth fuel) (depth + 1) (Some st1) ps = Some st' →
    ∃ n, ∀ gas r,
      dfs_stack evs maxDepth gas waiting st' = Some r →
      dfs_stack evs maxDepth (n + gas)
        (((λ parent, (parent, depth + 1)) <$> ps) ++ waiting) st1 = Some r).
  { induction ps as [|p ps IHps]; intros st1 Hfold.
    - injection Hfold as <-. by exists 0%nat.
    - rewrite visit_parents_cons in Hfold.
      destruct (traverse evs maxDepth fuel p (depth + 1) st1) as [st2|] eqn:Hp.
      2:{ by rewrite visit_parents_None in Hfold. }
      destruct (IHps st2 Hfold) as (n2 & Hn2).
      destruct (IH _ _ _ _ Hp (((λ parent, (parent, depth + 1)) <$> ps) ++ waiting))
        as (n1 & Hn1).
      exists (n1 + n2)%nat. intros gas r Hr.
      rewrite <- Nat.add_assoc. apply Hn1, Hn2, Hr. }
  destruct (Hps _ _ Hrun) as (n & Hn).
  exists (S n). intros gas r Hr. cbn. rewrite Hc, He. by apply Hn.
Qed.

(** The stack-based search is single-valued: more gas, same result. *)
Lemma dfs_stack_gas_mono gas : ∀ gas' stack st r,
  (gas ≤ gas')%nat →
  dfs_stack evs maxDepth gas stack st = Some r →
  dfs_stack evs maxDepth gas' stack st = Some r.
Proof.
  induction gas as [|gas IH]; intros gas' stack st r Hle.
  - destruct stack; [|done]. intros [= <-]. by destruct gas'.
  - destruct gas' as [|gas']; [lia|]. cbn.
    destruct stack as [|[h depth] waiting]; [done|].
    destruct ((depth >=? maxDepth) || bool_decide (h ∈ st.2)).
    + apply IH. lia.
    + destruct (evs !! h); apply IH; lia.
Qed.

End Chain.

Section ChainSpec.

Context (P : Primitives).

Lemma wf_hashes_of_chain (bc : Blockchain) hashes (chain : list Event) :
  events_wf P bc →
  Forall2 (λ h e, events bc !! h = Some e) hashes chain →
  hashes = hash_of P <$> chain.
Proof.
  intros Hwf Hall. induction Hall as [|h e hs es He _ IH]; [reflexivity|].
  cbn. by rewrite (Hwf _ _ He), IH.
Qed.

(** C5. On every store, for every start hash and depth bound,
    [GetEventChain] returns (the fuel of the model is enough, and more
    fuel gives the same chain).  The chain lists the events stored at
    the hashes visited, in the order of the visit: no hash is visited
    twice, so no event of a store keyed by payload hash is listed twice;
    every hash visited is fewer than [maxDepth] parent hops from the
    start; the start event, when stored and [maxDepth] is positive, comes
    first; and the order is that of the stack-based depth-first search.
    Nothing is assumed about the parent links, which may form cycles. *)
Theorem GetEventChain_spec (hash : string) (maxDepth : Z) (bc : Blockchain) :
  ∃ chain hashes,
    GetEventChain hash maxDepth bc = (Ok chain, bc)
    ∧ (∀ fuel, (chain_fuel maxDepth ≤ fuel)%nat →
               GetEventChain_fuel fuel hash maxDepth bc = Some chain)
    ∧ Forall2 (λ h e, events bc !! h = Some e) hashes chain
    ∧ NoDup hashes
    ∧ (events_wf P bc → NoDup chain)
    ∧ (∀ h, h ∈ hashes →
            ∃ n, reach (events bc) hash n h ∧ Z.of_nat n < maxDepth)
    ∧ (∀ e, events bc !! hash = Some e → 0 < maxDepth →
            ∃ rest, chain = e :: rest)
    ∧ (∃ gas, dfs_stack (events bc) maxDepth gas [(hash, 0)] ([], ∅)
              = Some (chain, list_to_set hashes)).
Proof.
  assert (visit_log (events bc) [] ([], ∅)) as Hlog0.
  { split; [apply NoDup_nil_2|]. split; [reflexivity|constructor]. }
  destruct (traverse_returns (events bc) maxDepth (chain_fuel maxDepth)
              hash 0 ([], ∅) [] Hlog0) as (hashes & [chain visited] & Hrun & Hlog & Hreach & Hhead).
  { unfold chain_fuel. lia. }
  destruct Hlog as (Hnd & Hset & Hall); cbn in Hnd, Hset, Hall.
  exists chain, hashes. split; [|split; [|split; [|split; [|split; [|split; [|split]]]]]].
  - unfold GetEventChain, GetEventChain_fuel. by rewrite Hrun.
  - intros fuel Hfuel. unfold GetEventChain_fuel.
    by rewrite (traverse_fuel_mono _ _ _ _ _ _ _ _ Hfuel Hrun).
  - exact Hall.
  - exact Hnd.
  - intros Hwf. rewrite (wf_hashes_of_chain bc hashes chain Hwf Hall) in Hnd.
    by apply NoDup_fmap_1 in Hnd.
  - intros h Hh. destruct (Hreach h Hh) as (n & Hr & Hn). exists n. split; [done|lia].
  - intros e He Hpos. destruct Hhead as [rest ->]; [lia|apply not_elem_of_empty|by eexists|].
    inversion Hall as [|? e' ? rest' He' Hrest]; subst.
    exists rest'. congruence.
  - destruct (traverse_dfs_stack _ _ _ _ _ _ _ Hrun []) as (n & Hn).
    exists (n + 0)%nat. rewrite <- Hset. by apply Hn.
Qed.

End ChainSpec.

(** ** GetRecentEvents *)

Lemma range_order_length range (m : gmap string Event) :
  range_order range → List.length (range m) = size m.
Proof.
  intros Hr. rewrite (Permutation_length (Hr m)).
  by rewrite length_fmap, length_map_to_list.
Qed.

Lemma range_entries_order : range_order range_entries.
Proof. intros m. reflexivity. Qed.

Lemma range_reverse_order : range_order range_reverse.
Proof. intros m. unfold range_reverse. by rewrite reverse_Permutation. Qed.

Lemma int_wrap_id z : int_range z → int_wrap z = z.
Proof.
  unfold int_range, int_wrap. intros Hz.
  rewrite Z.mod_small by lia. lia.
Qed.

Lemma GetRecentEvents_run range limit bc :
  GetRecentEvents range limit bc =
    let evs := range (events bc) in
    if Z.of_nat (List.length evs) >? limit
    then (slice_from evs (int_wrap (Z.of_nat (List.length evs) - limit)), bc)
    else (Ok evs, bc).
Proof.
  unfold GetRecentEvents, bind, gets; cbn.
  by destruct (Z.of_nat (List.length (range (events bc))) >? limit).
Qed.

(** C9. For every limit that is not negative, [GetRecentEvents] returns:
    its slice bounds are in range, and the result has [min limit n]
    events, where [n] is the number of stored events; it is the whole
    list when [n <= limit], and otherwise the last [limit] events of the
    order of visit.  For a negative limit the lower bound
    [len(events) - limit] of the slice exceeds the length (or wraps
    around below zero) and the slice expression panics; this happens, for
    one, with limit [-1] on a store of one event. *)
Theorem GetRecentEvents_slice_bounds :
  (∀ range limit bc,
     range_order range →
     Z.of_nat (size (events bc)) < 2 ^ 63 →
     0 ≤ limit →
     ∃ l, GetRecentEvents range limit bc = (Ok l, bc)
          ∧ Z.of_nat (List.length l) = Z.min limit (Z.of_nat (size (events bc)))
          ∧ l `suffix_of` range (events bc)
          ∧ (Z.of_nat (size (events bc)) ≤ limit → l = range (events bc)))
  ∧ (∀ range limit bc,
       range_order range →
       Z.of_nat (size (events bc)) < 2 ^ 63 →
       int_range limit →
       limit < 0 →
       GetRecentEvents range limit bc = (Panic "slice bounds out of range", bc))
  ∧ (∃ limit bc,
       limit < 0 ∧ size (events bc) = 1%nat
       ∧ ∀ range, range_order range →
           Z.of_nat (List.length (range (events bc)))
             < int_wrap (Z.of_nat (List.length (range (events bc))) - limit)
           ∧ GetRecentEvents range limit bc
               = (Panic "slice bounds out of range", bc)).
Proof.
  assert (Hneg : ∀ range limit bc,
     range_order range →
     Z.of_nat (size (events bc)) < 2 ^ 63 →
     int_range limit →
     limit < 0 →
     GetRecentEvents range limit bc = (Panic "slice bounds out of range", bc)).
  { intros range limit bc Hr Hsize Hlim Hneg.
    rewrite GetRecentEvents_run; cbn zeta.
    rewrite (range_order_length _ _ Hr).
    set (n := Z.of_nat (size (events bc))) in *.
    assert (0 ≤ n) by lia.
    destruct (n >? limit) eqn:Hgt; [|lia].
    unfold slice_from. rewrite (range_order_length _ _ Hr). fold n.
    assert ((int_wrap (n - limit) <? 0) || (n <? int_wrap (n - limit)) = true) as ->;
      [|reflexivity].
    unfold int_range in Hlim. unfold int_wrap.
    destruct (Z.lt_ge_cases (n - limit) (2 ^ 63)) as [Hsmall|Hbig].
    - rewrite Z.mod_small by lia. apply orb_true_iff. right. lia.
    - replace (n - limit + 2 ^ 63) with ((n - limit - 2 ^ 63) + 1 * 2 ^ 64) by lia.
      rewrite Z.mod_add by lia. rewrite Z.mod_small by lia.
      apply orb_true_iff. left. lia. }
  split; [|split; [exact Hneg|]].
  - intros range limit bc Hr Hsize Hlim.
    rewrite GetRecentEvents_run; cbn zeta.
    pose proof (range_order_length _ (events bc) Hr) as Hlen.
    rewrite Hlen.
    set (n := Z.of_nat (size (events bc))) in *.
    destruct (n >? limit) eqn:Hgt.
    + apply Z.gtb_lt in Hgt.
      rewrite int_wrap_id by (unfold int_range; lia).
      unfold slice_from. rewrite Hlen. fold n.
      assert ((n - limit <? 0) || (n <? n - limit) = false) as ->.
      { apply orb_false_iff. lia. }
      eexists. split; [reflexivity|]. split; [|split].
      * rewrite length_drop, Hlen. lia.
      * apply suffix_drop.
      * lia.
    + assert (n ≤ limit) by lia.
      eexists. split; [reflexivity|]. split; [|split].
      * rewrite Hlen. lia.
      * reflexivity.
      * done.
  - assert (size (events Model.S1) = 1%nat) as Hsize by by_evaluation.
    exists (-1), Model.S1. split; [lia|]. split; [exact Hsize|].
    intros range Hr. rewrite (range_order_length _ _ Hr), Hsize.
    split; [by_evaluation|].
    apply Hneg; [exact Hr|rewrite Hsize; lia| |lia].
    unfold int_range. lia.
Qed.

Lemma Model_S12_entries : range_entries (events Model.S12) = [Model.E2; Model.E1].
Proof. by_evaluation. Qed.

Lemma Model_E1_older : ¬ not_older Model.E1 Model.E2.
Proof. unfold not_older. by_evaluation. Qed.

(** C1, on a store with two events.  [Model.S12] holds [Model.E1], created
    at second 1, and [Model.E2], created at second 2.  With limit 2 and
    the order of visit [E1, E2], [GetRecentEvents] returns [E1, E2]: the
    older event first.  With limit 1 and the order of visit [E2, E1] it
    returns [E1] alone, which is not the most recent event.  Every order
    of visit of this store is one of the two. *)
Theorem GetRecentEvents_not_by_timestamp :
  Timestamp (Data Model.E1) = "1970-01-01T00:00:01Z"
  ∧ Timestamp (Data Model.E2) = "1970-01-01T00:00:02Z"
  ∧ range_order range_reverse
  ∧ GetRecentEvents range_reverse 2 Model.S12
      = (Ok [Model.E1; Model.E2], Model.S12)
  ∧ ¬ most_recent_first [Model.E1; Model.E2]
  ∧ range_order range_entries
  ∧ GetRecentEvents range_entries 1 Model.S12 = (Ok [Model.E1], Model.S12)
  ∧ ¬ not_older Model.E1 Model.E2
  ∧ ∀ range, range_order range →
      (GetRecentEvents range 2 Model.S12).1 = Ok [Model.E1; Model.E2]
      ∨ (GetRecentEvents range 1 Model.S12).1 = Ok [Model.E1].
Proof.
  assert (Hrun : ∀ range a b,
    range (events Model.S12) = [a; b] →
    GetRecentEvents range 2 Model.S12 = (Ok [a; b], Model.S12)
    ∧ GetRecentEvents range 1 Model.S12 = (Ok [b], Model.S12)).
  { intros range a b Hab. rewrite !GetRecentEvents_run, Hab. by split. }
  split; [by_evaluation|]. split; [by_evaluation|].
  split; [exact range_reverse_order|]. split.
  { refine (proj1 (Hrun range_reverse _ _ _)). unfold range_reverse.
    change ((map_to_list (events Model.S12)).*2) with (range_entries (events Model.S12)).
    by rewrite Model_S12_entries. }
  split.
  { intros Hs. apply StronglySorted_inv in Hs as [_ Hall].
    apply Forall_cons in Hall as [H12 _]. by apply Model_E1_older. }
  split; [exact range_entries_order|]. split.
  { exact (proj2 (Hrun range_entries _ _ Model_S12_entries)). }
  split; [exact Model_E1_older|].
  intros range Hr.
  assert ([Model.E2; Model.E1] ≡ₚ range (events Model.S12)) as Hperm.
  { rewrite (Hr _). by rewrite <- Model_S12_entries. }
  apply Permutation_length_2_inv in Hperm as [Heq | Heq];
    destruct (Hrun _ _ _ Heq) as [H2 H1].
  - right. by rewrite H1.
  - left. by rewrite H2.
Qed.

(** * The statements above, on the model *)

Lemma Model_E1_created :
  CreateEvent Model.prims "init" "first" (Some ∅) [] Model.pub Model.priv 1 New
  = (Ok Model.E1, New).
Proof. by_evaluation. Qed.

(** The scenario of the two linked events: [E1] without parents, [E2]
    with parent [E1]; the chain of [E2] is [E2] then [E1]. *)
Example Model_chain_of_E2 :
  GetEventChain (hash_of Model.prims Model.E2) 10 Model.S12
  = (Ok [Model.E2; Model.E1], Model.S12).
Proof. by_evaluation. Qed.

Lemma Model_Scycle_wf : events_wf Model.prims Model.Scycle.
Proof. apply AddEvents_events_wf, New_events_wf. Qed.

Lemma AddEvent_error_leaves_store_witness :
  (AddEvent Model.prims Model.badkey 30 Model.S1).1
    = Err (EventVerificationFailed (InvalidPublicKey (hex.InvalidByteError "z")))
  ∧ (AddEvent Model.prims Model.badkey 30 Model.S1).2 = Model.S1
  ∧ events (AddEvent Model.prims Model.badkey 30 Model.S1).2 = events Model.S1
  ∧ agents (AddEvent Model.prims Model.badkey 30 Model.S1).2 = agents Model.S1.
Proof.
  assert ((AddEvent Model.prims Model.badkey 30 Model.S1).1
          = Err (EventVerificationFailed (InvalidPublicKey (hex.InvalidByteError "z"))))
    as H by by_evaluation.
  destruct (AddEvent_error_leaves_store Model.prims Model.badkey 30 Model.S1 _ H)
    as (Hbc & Hev & Hag & _).
  split; [exact H|]. split; [exact Hbc|]. split; [exact Hev|exact Hag].
Defined.

Lemma same_payload_same_hash_witness :
  Data Model.E1 = Data Model.E1'
  ∧ Parents Model.E1 ≠ Parents Model.E1'
  ∧ hash_of Model.prims Model.E1 = hash_of Model.prims Model.E1'
  ∧ AddEvent Model.prims Model.E1 10 New = (Ok tt, Model.S1)
  ∧ AddEvent Model.prims Model.E1' 20 Model.S1 = (Ok tt, Model.S11')
  ∧ GetEvent (hash_of Model.prims Model.E1) Model.S1 = (Ok (Some Model.E1), Model.S1)
  ∧ GetEvent (hash_of Model.prims Model.E1) Model.S11'
      = (Ok (Some Model.E1'), Model.S11')
  ∧ dom (events Model.S11') = dom (events Model.S1).
Proof.
  assert (Data Model.E1 = Data Model.E1') as HD by by_evaluation.
  assert (AddEvent Model.prims Model.E1 10 New = (Ok tt, Model.S1)) as H1
    by by_evaluation.
  assert (AddEvent Model.prims Model.E1' 20 Model.S1 = (Ok tt, Model.S11')) as H2
    by by_evaluation.
  destruct (same_payload_same_hash Model.prims Model.E1 Model.E1' HD)
    as (Hh & _ & Hadd).
  split; [exact HD|]. split; [by_evaluation|]. split; [exact Hh|].
  split; [exact H1|]. split; [exact H2|].
  exact (Hadd New 10 20 Model.S1 Model.S11' H1 H2).
Defined.

Lemma created_event_accepted_witness :
  ed25519_keypair Model.prims Model.pub Model.priv
  ∧ ∃ e, CreateEvent Model.prims "init" "first" (Some ∅) [] Model.pub Model.priv 1 New
           = (Ok e, New)
         ∧ ∃ bc1, AddEvent Model.prims e 10 New = (Ok tt, bc1)
                  ∧ GetEvent (hash_of Model.prims e) bc1 = (Ok (Some e), bc1).
Proof.
  split; [exact Model_pub_priv|].
  destruct (created_event_accepted Model.prims Model_contract
              "init" "first" (Some ∅) [] Model.pub Model.priv 1 New Model_pub_priv)
    as (e & Hcreate & Hadd).
  exists e. split; [exact Hcreate|].
  destruct (Hadd New 10) as (bc1 & H1 & H2 & _).
  exists bc1. split; [exact H1|exact H2].
Defined.


(** C10 as stated fails on a private key of the wrong length: with the
    empty private key [ed25519.Sign] panics, and the call of [CreateEvent]
    yields no event. *)
Lemma CreateEvent_empty_key_panics :
  (CreateEvent Model.prims "init" "first" (Some ∅) [] Model.pub [] 1 New).1
    = Panic "ed25519: bad private key"
  ∧ ¬ ∃ e, (CreateEvent Model.prims "init" "first" (Some ∅) [] Model.pub [] 1 New).1
           = Ok e.
Proof.
  assert ((CreateEvent Model.prims "init" "first" (Some ∅) [] Model.pub [] 1 New).1
          = Panic "ed25519: bad private key") as H by by_evaluation.
  split; [exact H|]. intros [e He]. rewrite H in He. discriminate He.
Qed.

Lemma CreateEvent_never_errors_witness :
  is_Err (CreateEvent Model.prims "init" "first" (Some ∅) [] Model.pub Model.priv 1 New).1
    = false
  ∧ ed25519_keypair Model.prims Model.pub Model.priv
  ∧ is_Ok (CreateEvent Model.prims "init" "first" (Some ∅) [] Model.pub Model.priv 1 New).1
    = true
  ∧ List.length (A:=byte) [] ≠ PrivateKeySize
  ∧ is_Err (CreateEvent Model.prims "init" "first" (Some ∅) [] Model.pub [] 1 New).1
    = false
  ∧ is_Panic (CreateEvent Model.prims "init" "first" (Some ∅) [] Model.pub [] 1 New).1
    = true.
Proof.
  destruct (CreateEvent_never_errors Model.prims Model_contract
              "init" "first" (Some ∅) [] Model.pub Model.priv 1 New)
    as (Hnoerr & _ & _ & Hok & _).
  destruct (CreateEvent_never_errors Model.prims Model_contract
              "init" "first" (Some ∅) [] Model.pub [] 1 New)
    as (Hnoerr' & _ & _ & _ & Hpanic).
  assert (List.length (A:=byte) [] ≠ PrivateKeySize) as Hlen by (cbn; discriminate).
  split; [exact Hnoerr|]. split; [exact Model_pub_priv|].
  split; [exact (Hok Model_pub_priv)|]. split; [exact Hlen|].
  split; [exact Hnoerr'|exact (Hpanic Hlen)].
Defined.


Lemma GetEventChain_spec_witness :
  events_wf Model.prims Model.Scycle
  ∧ Model.hashB = hash_of Model.prims Model.CB
  ∧ Parents Model.CA = [hash_of Model.prims Model.CB]
  ∧ Parents Model.CB = [hash_of Model.prims Model.CA; hash_of Model.prims Model.CB]
  ∧ ∃ chain,
      GetEventChain (hash_of Model.prims Model.CA) 10 Model.Scycle
        = (Ok chain, Model.Scycle)
      ∧ chain = [Model.CA; Model.CB]
      ∧ NoDup chain.
Proof.
  destruct (GetEventChain_spec Model.prims (hash_of Model.prims Model.CA) 10 Model.Scycle)
    as (chain & hashes & Hrun & _ & _ & _ & Hnodup & _).
  assert (GetEventChain (hash_of Model.prims Model.CA) 10 Model.Scycle
          = (Ok [Model.CA; Model.CB], Model.Scycle)) as Hval by by_evaluation.
  split; [exact Model_Scycle_wf|]. split; [by_evaluation|].
  split; [by_evaluation|]. split; [by_evaluation|].
  exists chain. split; [exact Hrun|]. split; [congruence|].
  exact (Hnodup Model_Scycle_wf).
Defined.

Lemma GetRecentEvents_slice_bounds_witness :
  range_order range_entries
  ∧ (∃ l, GetRecentEvents range_entries 1 Model.S12 = (Ok l, Model.S12)
          ∧ Z.of_nat (List.length l) = 1)
  ∧ (∃ l, GetRecentEvents range_entries 5 Model.S12 = (Ok l, Model.S12)
          ∧ Z.of_nat (List.length l) = 2
          ∧ l = range_entries (events Model.S12))
  ∧ GetRecentEvents range_entries (-1) Model.S12
      = (Panic "slice bounds out of range", Model.S12).
Proof.
  destruct GetRecentEvents_slice_bounds as (Hpos & Hneg & _).
  assert (size (events Model.S12) = 2%nat) as Hsize by by_evaluation.
  assert (Z.of_nat (size (events Model.S12)) < 2 ^ 63) as Hint
    by (rewrite Hsize; reflexivity).
  split; [exact range_entries_order|]. split; [|split].
  - destruct (Hpos range_entries 1 Model.S12 range_entries_order Hint ltac:(lia))
      as (l & Hrun & Hlen & _).
    exists l. split; [exact Hrun|]. rewrite Hlen, Hsize. reflexivity.
  - destruct (Hpos range_entries 5 Model.S12 range_entries_order Hint ltac:(lia))
      as (l & Hrun & Hlen & _ & Hall).
    exists l. split; [exact Hrun|]. split.
    + rewrite Hlen, Hsize. reflexivity.
    + apply Hall. rewrite Hsize. lia.
  - apply (Hneg range_entries (-1) Model.S12 range_entries_order Hint); [|lia].
    unfold int_range. lia.
Defined.

(** * Further properties of the store *)

(** ** encoding/hex: lengths *)

Lemma hex_Decode_length : ∀ s bs,
  hex.DecodeString s = inr bs → String.length s = (2 * List.length bs)%nat.
Proof.
  fix IH 1. intros [|p [|q rest]] bs; cbn.
  - by intros [= <-].
  - by destruct (hex.fromHexChar p).
  - destruct (hex.fromHexChar p) as [a|]; [|done].
    destruct (hex.fromHexChar q) as [b|]; [|done].
    destruct (hex.DecodeString rest) as [|bs'] eqn:Hrest; [done|].
    intros [= <-]. cbn. rewrite (IH rest bs' Hrest). lia.
Qed.

Section Reachable.

Context (P : Primitives).

Lemma AddEvents_reachable calls bc :
  reachable P bc → reachable P (AddEvents P calls bc).2.
Proof.
  revert bc. induction calls as [|[e now] calls IH]; intros bc Hr; [done|].
  cbn. unfold bind.
  pose proof (reachable_AddEvent P bc e now Hr) as Hr'.
  destruct (AddEvent P e now bc) as [[[]| |] bc1]; cbn in *; [by apply IH|done..].
Qed.

(** An invariant of [accepted] that holds of [New] holds of every
    reachable store. *)
Lemma reachable_ind_accepted (I : Blockchain → Prop) :
  I New →
  (∀ e now bc, reachable P bc → I bc → verdict P e = Ok tt →
               I (accepted P e now bc)) →
  ∀ bc, reachable P bc → I bc.
Proof.
  intros H0 Hstep bc Hr. induction Hr as [|bc e now Hr IH]; [exact H0|].
  rewrite AddEvent_run. destruct (verdict P e) as [[]| |] eqn:Hv; cbn; [|done..].
  by apply Hstep.
Qed.

Lemma verdict_Ok_key_length e :
  ed25519_contract P → verdict P e = Ok tt →
  ∃ pk, hex.DecodeString (AuthorPubKey e) = inr pk
        ∧ List.length pk = PublicKeySize
        ∧ String.length (AuthorPubKey e) = 64%nat.
Proof.
  intros HC. unfold verdict, verifyEvent.
  destruct (hex.DecodeString (AuthorPubKey e)) as [|pk] eqn:Hpk; [done|].
  destruct (hex.DecodeString (Signature e)) as [|sg]; [done|].
  unfold bind. rewrite HashEvent_run. cbn.
  destruct (decide (List.length pk = PublicKeySize)) as [Hlen|Hlen].
  - intros _. exists pk. split; [done|]. split; [done|].
    rewrite (hex_Decode_length _ _ Hpk), Hlen. reflexivity.
  - by rewrite (verify_key_size P HC).
Qed.

Lemma reachable_store_inv bc : reachable P bc → store_inv P bc.
Proof.
  revert bc. apply (reachable_ind_accepted (store_inv P)).
  - split; intros ? ?; cbn; by rewrite lookup_empty.
  - intros e now bc _ [Hk Hv Ha Hak Hal Hae] Hok. split; cbn.
    + intros h e'. rewrite lookup_insert.
      case_decide; [by intros [= <-]|]. apply Hk.
    + intros h e'. rewrite lookup_insert.
      case_decide; [by intros [= <-]|]. apply Hv.
    + intros h e'. rewrite lookup_insert. case_decide.
      * intros [= <-]. rewrite lookup_insert_eq. by eexists.
      * intros He'. rewrite lookup_insert. case_decide; [by eexists|].
        by eapply Ha.
    + intros k a. rewrite lookup_insert.
      case_decide; [by intros [= <-]|]. apply Hak.
    + intros k a. rewrite lookup_insert. case_decide.
      * intros [= <-]; cbn. rewrite lookup_insert_eq. by eexists.
      * intros Hka. rewrite lookup_insert. case_decide; [by eexists|].
        by eapply Hal.
    + intros k a. rewrite lookup_insert. case_decide.
      * intros _. by exists e.
      * apply Hae.
Qed.

(** X1. In every store built by [New] and [AddEvent], an event that
    [GetEvent] returns for a hash is stored under the hash of its own
    payload, is accepted by [verifyEvent], and has an author with an entry
    in the registry that [GetAgents] returns. *)
Theorem reachable_events_verified (bc : Blockchain) :
  reachable P bc →
  ∀ h e, GetEvent h bc = (Ok (Some e), bc) →
    HashEvent P e bc = (Ok h, bc)
    ∧ verifyEvent P e bc = (Ok tt, bc)
    ∧ ∃ ags a, GetAgents bc = (Ok ags, bc)
               ∧ ags !! AuthorPubKey e = Some a.
Proof.
  intros Hr h e Hget. destruct (reachable_store_inv bc Hr) as [Hk Hv Ha _ _ _].
  unfold GetEvent, gets in Hget. injection Hget as Hget.
  rewrite HashEvent_run, verifyEvent_run, (Hk _ _ Hget), (Hv _ _ Hget).
  split; [done|]. split; [done|].
  destruct (Ha _ _ Hget) as [a Hag]. by exists (agents bc), a.
Qed.

(** X2. In every store built by [New] and [AddEvent], each entry of the
    registry is stored under its own [PubKey], its [LastEventHash] is a
    hash that [GetEvent] finds, and its key is the [AuthorPubKey] of an
    event that [verifyEvent] accepts; under the contract of
    [crypto/ed25519] the key is therefore 64 hex digits long. *)
Theorem reachable_registry_consistent (bc : Blockchain) :
  reachable P bc →
  ∀ ags k a, GetAgents bc = (Ok ags, bc) → ags !! k = Some a →
    PubKey a = k
    ∧ (∃ e, GetEvent (LastEventHash a) bc = (Ok (Some e), bc))
    ∧ (∃ e, AuthorPubKey e = k ∧ verifyEvent P e bc = (Ok tt, bc))
    ∧ (ed25519_contract P → String.length k = 64%nat).
Proof.
  intros Hr ags k a [= <-] Hka.
  destruct (reachable_store_inv bc Hr) as [_ _ _ Hak Hal Hae].
  split; [by eapply Hak|]. split.
  { destruct (Hal _ _ Hka) as [e He]. exists e. unfold GetEvent, gets. by rewrite He. }
  destruct (Hae _ _ Hka) as (e & Hv & He). split.
  { exists e. split; [done|]. by rewrite verifyEvent_run, Hv. }
  intros HC. destruct (verdict_Ok_key_length e HC Hv) as (_ & _ & _ & Hlen).
  by rewrite <- He.
Qed.

End Reachable.

Section Contents.

Context (P : Primitives).

Lemma last_call_snoc (sel : Event → Prop) `{∀ e, Decision (sel e)} calls c :
  last_call sel (calls ++ [c]) = if decide (sel c.1) then Some c else last_call sel calls.
Proof.
  unfold last_call. rewrite filter_app, filter_cons, filter_nil.
  case_decide.
  - by rewrite last_snoc.
  - by rewrite app_nil_r.
Qed.

Lemma foldl_accepted_events calls bc0 h :
  events (foldl (λ b c, accepted P c.1 c.2 b) bc0 calls) !! h
  = match last_call (λ e, hash_of P e = h) calls with
    | Some c => Some c.1
    | None => events bc0 !! h
    end.
Proof.
  induction calls as [|c calls IH] using rev_ind; [done|].
  rewrite foldl_app, last_call_snoc; cbn. rewrite lookup_insert.
  destruct (decide (hash_of P c.1 = h)); [done|exact IH].
Qed.

Lemma foldl_accepted_agents calls bc0 k :
  agents (foldl (λ b c, accepted P c.1 c.2 b) bc0 calls) !! k
  = match last_call (λ e, AuthorPubKey e = k) calls with
    | Some c => Some {| PubKey := k;
                        LastEventHash := hash_of P c.1;
                        LastSeen := c.2 |}
    | None => agents bc0 !! k
    end.
Proof.
  induction calls as [|c calls IH] using rev_ind; [done|].
  rewrite foldl_app, last_call_snoc; cbn. rewrite lookup_insert.
  destruct (decide (AuthorPubKey c.1 = k)) as [<-|]; [done|exact IH].
Qed.

(** X3. After a sequence of accepted [AddEvent] calls, [GetEvent] of a
    hash returns the event of the last call of the sequence with that
    payload hash, and what the store held before when there is no such
    call (not found on [New]); the registry holds, for an author key, the
    hash and time of the last call with that [AuthorPubKey], and what it
    held before when there is none.  Entries under other hashes and keys
    are not touched. *)
Theorem AddEvents_store_contents (calls : list (Event * Time)) (bc0 bc : Blockchain) :
  AddEvents P calls bc0 = (Ok tt, bc) →
  (∀ h, GetEvent h bc
        = (Ok match last_call (λ e, hash_of P e = h) calls with
              | Some c => Some c.1
              | None => events bc0 !! h
              end, bc))
  ∧ (∀ k, ∃ ags, GetAgents bc = (Ok ags, bc)
       ∧ ags !! k
         = match last_call (λ e, AuthorPubKey e = k) calls with
           | Some c => Some {| PubKey := k;
                               LastEventHash := hash_of P c.1;
                               LastSeen := c.2 |}
           | None => agents bc0 !! k
           end).
Proof.
  intros [-> _]%AddEvents_Ok_inv. split.
  - intros h. unfold GetEvent, gets. by rewrite foldl_accepted_events.
  - intros k. eexists. split; [reflexivity|]. apply foldl_accepted_agents.
Qed.

Lemma insert_over_single (m : gmap string Event) h e :
  dom m ⊆ {[h]} → <[h := e]> m = {[h := e]}.
Proof.
  intros Hdom. apply map_eq. intros i. rewrite lookup_insert.
  case_decide as Hi; [subst; by rewrite lookup_singleton_eq|].
  rewrite lookup_singleton_ne by done.
  apply not_elem_of_dom. intros Hin. apply Hdom in Hin.
  apply elem_of_singleton in Hin. congruence.
Qed.

Lemma range_order_singleton range h (e : Event) :
  range_order range → range {[h := e]} = [e].
Proof.
  intros Hr. apply Permutation_singleton_r.
  rewrite (Hr _), map_to_list_singleton. reflexivity.
Qed.

(** X4. Events made by [CreateEvent] from the same arguments at clock
    readings with the same RFC 3339 timestamp (the same second) are one
    and the same event.  When every event of a non-empty sequence of
    accepted [AddEvent] calls on [New] has the payload of the last one,
    the store holds that one event alone, and [GetRecentEvents] with a
    limit of one or more returns it alone: the five additions of
    [TestGetRecentEvents] leave one event, not three, unless the second
    changes in between. *)
Theorem same_payload_one_event :
  (∀ eventType description payload parents pub priv now now' bc bc',
     time_RFC3339 P now = time_RFC3339 P now' →
     (CreateEvent P eventType description payload parents pub priv now bc).1
     = (CreateEvent P eventType description payload parents pub priv now' bc').1)
  ∧ ∀ calls e now bc,
      AddEvents P (calls ++ [(e, now)]) New = (Ok tt, bc) →
      (∀ c, c ∈ calls → Data c.1 = Data e) →
      events bc = {[hash_of P e := e]}
      ∧ size (events bc) = 1%nat
      ∧ ∀ range limit,
          range_order range → 1 ≤ limit →
          GetRecentEvents range limit bc = (Ok [e], bc).
Proof.
  split.
  { intros eventType description payload parents pub priv now now' bc bc' Hts.
    rewrite !CreateEvent_run. unfold unsigned_event, hash_of; cbn. by rewrite Hts. }
  intros calls e now bc [-> _]%AddEvents_Ok_inv Hsame.
  rewrite foldl_app.
  change (foldl _ ?b [(e, now)]) with (accepted P e now b).
  assert (events (accepted P e now (foldl (λ b c, accepted P c.1 c.2 b) New calls))
          = {[hash_of P e := e]}) as Hev.
  { cbn. apply insert_over_single.
    intros h [e' He']%elem_of_dom. rewrite foldl_accepted_events in He'.
    unfold last_call in He'.
    destruct (last (filter _ calls)) as [c|] eqn:Hlast;
      [|cbn in He'; by rewrite lookup_empty in He'].
    apply last_Some_elem_of, list_elem_of_filter in Hlast as [Hh Hc].
    cbn in Hh. rewrite <- Hh. apply elem_of_singleton.
    by apply hash_of_Data, Hsame. }
  split; [exact Hev|]. split; [by rewrite Hev, map_size_singleton|].
  intros range limit Hr Hlimit. rewrite GetRecentEvents_run, Hev; cbn zeta.
  rewrite (range_order_singleton _ _ _ Hr); cbn [List.length].
  change (Z.of_nat 1) with 1.
  destruct (1 >? limit) eqn:Hgt; [lia|reflexivity].
Qed.

End Contents.

(** ** More on GetRecentEvents and GetEventChain *)

Lemma elem_of_map_values (m : gmap string Event) e :
  e ∈ (map_to_list m).*2 ↔ ∃ h, m !! h = Some e.
Proof.
  rewrite list_elem_of_fmap. split.
  - intros ([h e'] & -> & Hin). exists h. by apply elem_of_map_to_list.
  - intros [h Hh]. exists (h, e). split; [done|]. by apply elem_of_map_to_list.
Qed.

Lemma GetRecentEvents_drop range limit bc :
  range_order range →
  Z.of_nat (size (events bc)) < 2 ^ 63 →
  0 ≤ limit →
  GetRecentEvents range limit bc
  = (Ok (drop (size (events bc) - Z.to_nat limit) (range (events bc))), bc).
Proof.
  intros Hr Hsize Hlim. rewrite GetRecentEvents_run; cbn zeta.
  pose proof (range_order_length _ (events bc) Hr) as Hlen. rewrite Hlen.
  destruct (Z.of_nat (size (events bc)) >? limit) eqn:Hgt.
  - apply Z.gtb_lt in Hgt.
    rewrite int_wrap_id by (unfold int_range; lia).
    unfold slice_from. rewrite Hlen.
    assert ((Z.of_nat (size (events bc)) - limit <? 0)
            || (Z.of_nat (size (events bc)) <? Z.of_nat (size (events bc)) - limit)
            = false) as ->.
    { apply orb_false_iff. lia. }
    do 3 f_equal. lia.
  - replace (size (events bc) - Z.to_nat limit)%nat with 0%nat by lia.
    reflexivity.
Qed.

Section Recent.

Context (P : Primitives).

Lemma wf_values_NoDup (bc : Blockchain) :
  events_wf P bc → NoDup (map_to_list (events bc)).*2.
Proof.
  intros Hwf. apply (NoDup_fmap_1 (hash_of P)).
  replace (hash_of P <$> (map_to_list (events bc)).*2)
    with ((map_to_list (events bc)).*1); [apply NoDup_fst_map_to_list|].
  rewrite <- list_fmap_compose. apply list_fmap_ext.
  intros i [h e] Hi%list_elem_of_lookup_2%elem_of_map_to_list; cbn.
  symmetry. by apply Hwf.
Qed.

(** X5. For a limit that is not negative, every event that
    [GetRecentEvents] returns is one that [GetEvent] finds in the store;
    on a store keyed by payload hash no event is returned twice; with a
    limit of at least the number of stored events the result is the
    stored events, each once, in some order; with limit 0, and on the
    empty store, it is the empty list. *)
Theorem GetRecentEvents_contents range (limit : Z) (bc : Blockchain) :
  range_order range →
  Z.of_nat (size (events bc)) < 2 ^ 63 →
  0 ≤ limit →
  ∃ l, GetRecentEvents range limit bc = (Ok l, bc)
       ∧ (∀ e, e ∈ l → ∃ h, GetEvent h bc = (Ok (Some e), bc))
       ∧ (events_wf P bc → NoDup l)
       ∧ (Z.of_nat (size (events bc)) ≤ limit →
          l ≡ₚ (map_to_list (events bc)).*2)
       ∧ (limit = 0 ∨ events bc = ∅ → l = []).
Proof.
  intros Hr Hsize Hlim. eexists. split; [by apply GetRecentEvents_drop|].
  pose proof (range_order_length _ (events bc) Hr) as Hlen.
  split; [|split; [|split]].
  - intros e He. apply (subseteq_drop _ _ e) in He. rewrite (Hr _) in He.
    apply elem_of_map_values in He as [h Hh]. exists h.
    unfold GetEvent, gets. by rewrite Hh.
  - intros Hwf. eapply sublist_NoDup; [|apply sublist_drop].
    rewrite (Hr _). by apply wf_values_NoDup.
  - intros Hall. replace (size (events bc) - Z.to_nat limit)%nat with 0%nat by lia.
    rewrite drop_0. apply Hr.
  - intros [-> | Hempty].
    + apply drop_ge. rewrite Hlen. cbn. lia.
    + apply drop_ge. rewrite Hlen, Hempty, map_size_empty. lia.
Qed.

End Recent.

Section ChainEdges.

Context (evs : gmap string Event).

Lemma reach_from_missing start n k :
  evs !! start = None → reach evs start n k → k = start.
Proof.
  intros Hnone Hr. induction Hr as [|n h' e p _ IH He _]; [done|].
  subst h'. congruence.
Qed.

Lemma visit_log_length hashes (st : TravState) :
  visit_log evs hashes st →
  List.length st.1 = List.length hashes
  ∧ (List.length hashes ≤ size evs)%nat.
Proof.
  intros (Hnd & _ & Hall). split; [symmetry; by eapply Forall2_length|].
  rewrite <- (size_list_to_set (C:=gset string) hashes Hnd).
  rewrite <- (size_dom evs). apply subseteq_size.
  intros k Hk%elem_of_list_to_set.
  apply list_elem_of_lookup in Hk as [i Hi].
  destruct (Forall2_lookup_l _ _ _ _ _ Hall Hi) as (e & _ & He).
  apply elem_of_dom. by exists e.
Qed.

End ChainEdges.

(** X6. [GetEventChain] returns the empty chain exactly when the depth
    bound is zero or negative or the start hash is not stored; the chain
    never has more events than the store; every event of it is one that
    [GetEvent] finds; and with depth bound 1 it is the start event alone. *)
Theorem GetEventChain_edges (hash : string) (maxDepth : Z) (bc : Blockchain) :
  ∃ chain,
    GetEventChain hash maxDepth bc = (Ok chain, bc)
    ∧ (chain = [] ↔ maxDepth ≤ 0 ∨ (GetEvent hash bc).1 = Ok None)
    ∧ (List.length chain ≤ size (events bc))%nat
    ∧ (∀ e, e ∈ chain → ∃ h, GetEvent h bc = (Ok (Some e), bc))
    ∧ (maxDepth = 1 → ∀ e, events bc !! hash = Some e → chain = [e]).
Proof.
  assert (visit_log (events bc) [] ([], ∅)) as Hlog0.
  { split; [apply NoDup_nil_2|]. split; [reflexivity|constructor]. }
  destruct (traverse_returns (events bc) maxDepth (chain_fuel maxDepth)
              hash 0 ([], ∅) [] Hlog0)
    as (hashes & [chain visited] & Hrun & Hlog & Hreach & Hhead).
  { unfold chain_fuel. lia. }
  cbn [app] in Hlog.
  destruct (visit_log_length _ _ _ Hlog) as [Hlen Hsize]. cbn in Hlen.
  destruct Hlog as (Hnd & _ & Hall); cbn in Hall.
  exists chain. split.
  { unfold GetEventChain, GetEventChain_fuel. by rewrite Hrun. }
  assert (Hstored : ∀ k, k ∈ hashes → is_Some (events bc !! k)).
  { intros k [i Hi]%list_elem_of_lookup.
    destruct (Forall2_lookup_l _ _ _ _ _ Hall Hi) as (e & _ & He). by exists e. }
  split; [|split; [|split]].
  - unfold GetEvent, gets; cbn. split.
    + intros ->. destruct hashes; [|done].
      destruct (decide (maxDepth ≤ 0)) as [|Hpos]; [by left|right].
      destruct (events bc !! hash) as [e|] eqn:He; [|done].
      destruct Hhead as [rest Habs]; [lia|apply not_elem_of_empty|done|done].
    + intros Hcase. destruct hashes as [|k hashes].
      { by destruct chain. }
      exfalso. destruct (Hreach k ltac:(by left)) as (n & Hr & Hn).
      destruct Hcase as [Hneg | Hnone]; [lia|].
      assert (events bc !! hash = None) as Hnone'.
      { by destruct (events bc !! hash). }
      rewrite (reach_from_missing _ _ _ _ Hnone' Hr) in Hstored.
      destruct (Hstored hash ltac:(by left)) as [e He]. congruence.
  - lia.
  - intros e [i Hi]%list_elem_of_lookup.
    destruct (Forall2_lookup_r _ _ _ _ _ Hall Hi) as (k & _ & Hk).
    exists k. unfold GetEvent, gets. by rewrite Hk.
  - intros -> e He.
    destruct Hhead as [rest ->]; [lia|apply not_elem_of_empty|done|].
    destruct rest as [|k rest].
    + inversion Hall as [|? e' ? ? He' Hrest]; subst.
      inversion Hrest; subst. congruence.
    + exfalso. destruct (Hreach k ltac:(right; by left)) as (n & Hr & Hn).
      assert (n = 0%nat) as -> by lia. inversion Hr; subst.
      apply NoDup_cons in Hnd as [Hnotin _]. apply Hnotin. by left.
Qed.

(** ** GetEventChain finds every stored ancestor when the bound is large *)

Section ChainComplete.

Context (evs : gmap string Event) (maxDepth : Z).
Hypothesis bound_large : Z.of_nat (size evs) ≤ maxDepth.

(** A stored hash that is not yet visited is never met at the bound: the
    depth of a call is at most the number of hashes visited before it. *)
Lemma depth_below_bound h depth (visited : gset string) :
  visited ⊆ dom evs → depth ≤ Z.of_nat (size visited) →
  is_Some (evs !! h) → h ∉ visited → depth < maxDepth.
Proof.
  intros Hsub Hdepth Hh Hnew.
  assert (visited ⊂ dom evs) as Hstrict.
  { split; [exact Hsub|]. intros Hrev. apply Hnew, Hrev. by apply elem_of_dom. }
  apply subset_size in Hstrict. rewrite size_dom in Hstrict. lia.
Qed.

Lemma traverse_closed fuel : ∀ h depth (st st' : TravState),
  traverse evs maxDepth fuel h depth st = Some st' →
  st.2 ⊆ dom evs →
  depth ≤ Z.of_nat (size st.2) →
  st.2 ⊆ st'.2
  ∧ st'.2 ⊆ dom evs
  ∧ (is_Some (evs !! h) → h ∈ st'.2)
  ∧ (∀ k e p, k ∈ st'.2 → k ∉ st.2 → evs !! k = Some e → p ∈ Parents e →
              is_Some (evs !! p) → p ∈ st'.2).
Proof.
  induction fuel as [|fuel IH]; intros h depth st st' Hrun Hsub Hdepth; [done|].
  rewrite traverse_unfold in Hrun.
  destruct (depth >=? maxDepth) eqn:Hd; cbn [orb] in Hrun.
  { injection Hrun as <-. split; [done|]. split; [done|]. split; [|done].
    intros Hh. destruct (decide (h ∈ st.2)) as [|Hnew]; [done|].
    pose proof (depth_below_bound h depth st.2 Hsub Hdepth Hh Hnew).
    apply Z.geb_le in Hd. lia. }
  destruct (bool_decide (h ∈ st.2)) eqn:Hv.
  { apply bool_decide_eq_true_1 in Hv. injection Hrun as <-.
    split; [done|]. split; [done|]. split; done. }
  apply bool_decide_eq_false_1 in Hv.
  destruct (evs !! h) as [e|] eqn:He.
  2:{ injection Hrun as <-. split; [done|]. split; [done|].
      split; [by intros [? ?]|done]. }
  assert (Hps : ∀ ps (st1 st2 : TravState),
    visit_parents (traverse evs maxDepth fuel) (depth + 1) (Some st1) ps = Some st2 →
    st1.2 ⊆ dom evs →
    depth + 1 ≤ Z.of_nat (size st1.2) →
    st1.2 ⊆ st2.2
    ∧ st2.2 ⊆ dom evs
    ∧ (∀ p, p ∈ ps → is_Some (evs !! p) → p ∈ st2.2)
    ∧ (∀ k e' p, k ∈ st2.2 → k ∉ st1.2 → evs !! k = Some e' → p ∈ Parents e' →
                 is_Some (evs !! p) → p ∈ st2.2)).
  { induction ps as [|p ps IHps]; intros st1 st2 Hfold Hsub1 Hdepth1.
    - injection Hfold as <-. split; [done|]. split; [done|].
      split; [|done]. intros p Hp. by apply elem_of_nil in Hp.
    - rewrite visit_parents_cons in Hfold.
      destruct (traverse evs maxDepth fuel p (depth + 1) st1) as [stm|] eqn:Hp.
      2:{ by rewrite visit_parents_None in Hfold. }
      destruct (IH _ _ _ _ Hp Hsub1 Hdepth1) as (Ha1 & Hb1 & Hc1 & Hd1).
      destruct (IHps stm st2 Hfold Hb1) as (Ha2 & Hb2 & Hc2 & Hd2).
      { apply subseteq_size in Ha1. lia. }
      split; [by etransitivity|]. split; [done|]. split.
      + intros q [->|Hq]%elem_of_cons Hstored; [|by apply Hc2].
        apply Ha2. by apply Hc1.
      + intros k e' q Hk Hnew Hk' Hq Hstored.
        destruct (decide (k ∈ stm.2)) as [Hin|Hout].
        * apply Ha2. by eapply Hd1.
        * by eapply Hd2. }
  destruct (Hps _ _ _ Hrun) as (Ha & Hb & Hc & Hd'); cbn [snd].
  { apply union_subseteq. split; [|done].
    apply singleton_subseteq_l, elem_of_dom. by eexists. }
  { rewrite size_union by (apply disjoint_singleton_l; done).
    rewrite size_singleton. lia. }
  cbn [snd] in Ha, Hd'.
  split; [etransitivity; [|exact Ha]; apply union_subseteq_r|].
  split; [done|]. split.
  { intros _. apply Ha. apply elem_of_union_l. by apply elem_of_singleton. }
  intros k e' p Hk Hnew Hk' Hp Hstored.
  destruct (decide (k = h)) as [->|Hne].
  - rewrite He in Hk'. injection Hk' as <-. by apply Hc.
  - eapply Hd'; [exact Hk| |exact Hk'|exact Hp|exact Hstored].
    intros [Hkh%elem_of_singleton|Hin]%elem_of_union; [done|by apply Hnew].
Qed.

Lemma closed_reach (visited : gset string) start :
  (is_Some (evs !! start) → start ∈ visited) →
  (∀ k e p, k ∈ visited → evs !! k = Some e → p ∈ Parents e →
            is_Some (evs !! p) → p ∈ visited) →
  ∀ n h, reach evs start n h → is_Some (evs !! h) → h ∈ visited.
Proof.
  intros Hstart Hclosed n h Hr.
  induction Hr as [|n h' e p _ IH He Hp]; [exact Hstart|].
  intros Hstored. eapply Hclosed; [|exact He|exact Hp|exact Hstored].
  apply IH. by eexists.
Qed.

End ChainComplete.

(** X7. With a depth bound of at least the number of stored events,
    [GetEventChain] returns exactly the stored events that can be reached
    from the start hash along parent links through stored events: every
    such ancestor is in the chain, and nothing else is. *)
Theorem GetEventChain_complete (hash : string) (maxDepth : Z) (bc : Blockchain) :
  Z.of_nat (size (events bc)) ≤ maxDepth →
  ∃ chain,
    GetEventChain hash maxDepth bc = (Ok chain, bc)
    ∧ ∀ e, e ∈ chain ↔
           ∃ n h, reach (events bc) hash n h ∧ events bc !! h = Some e.
Proof.
  intros Hbound.
  assert (visit_log (events bc) [] ([], ∅)) as Hlog0.
  { split; [apply NoDup_nil_2|]. split; [reflexivity|constructor]. }
  destruct (traverse_returns (events bc) maxDepth (chain_fuel maxDepth)
              hash 0 ([], ∅) [] Hlog0)
    as (hashes & [chain visited] & Hrun & Hlog & Hreach & _).
  { unfold chain_fuel. lia. }
  cbn [app] in Hlog. destruct Hlog as (_ & Hset & Hall); cbn in Hset, Hall.
  destruct (traverse_closed (events bc) maxDepth Hbound _ _ _ _ _ Hrun)
    as (_ & _ & Hstart & Hclosed); cbn [snd] in *.
  { apply empty_subseteq. }
  { rewrite size_empty. lia. }
  exists chain. split.
  { unfold GetEventChain, GetEventChain_fuel. by rewrite Hrun. }
  intros e. split.
  - intros [i Hi]%list_elem_of_lookup.
    destruct (Forall2_lookup_r _ _ _ _ _ Hall Hi) as (k & Hk & Hke).
    destruct (Hreach k) as (n & Hr & _); [by eapply list_elem_of_lookup_2|].
    by exists n, k.
  - intros (n & h & Hr & He).
    assert (h ∈ visited) as Hin.
    { eapply (closed_reach (events bc) visited hash); [exact Hstart| |exact Hr|by eexists].
      intros k e' p Hk. apply Hclosed; [exact Hk|apply not_elem_of_empty]. }
    rewrite Hset in Hin. apply elem_of_list_to_set in Hin.
    apply list_elem_of_lookup in Hin as [i Hi].
    destruct (Forall2_lookup_l _ _ _ _ _ Hall Hi) as (e' & Hi' & He').
    assert (e' = e) as -> by congruence.
    by eapply list_elem_of_lookup_2.
Qed.

(** ** Adding an event on top of a chain *)

Section ChainExtend.

Context (evs : gmap string Event) (maxDepth : Z) (h1 : string) (e1 : Event).
Hypothesis h1_fresh : evs !! h1 = None.

(** The traversal below a new event [e1], in the store with [e1] and
    with [e1] visited, does what the traversal did before [e1] was
    stored, one level deeper. *)
Lemma geb_shift depth : (depth + 1 >=? maxDepth) = (depth >=? maxDepth - 1).
Proof.
  rewrite !Z.geb_leb.
  destruct (Z.leb_spec maxDepth (depth + 1)), (Z.leb_spec (maxDepth - 1) depth);
    (reflexivity || lia).
Qed.

Lemma traverse_below_new fuel : ∀ h depth (st st' : TravState) pre,
  traverse evs (maxDepth - 1) fuel h depth st = Some st' →
  traverse (<[h1 := e1]> evs) maxDepth fuel h (depth + 1)
    (pre ++ st.1, {[h1]} ∪ st.2)
  = Some (pre ++ st'.1, {[h1]} ∪ st'.2).
Proof.
  induction fuel as [|fuel IH]; intros h depth st st' pre Hrun; [done|].
  rewrite traverse_unfold in Hrun. rewrite traverse_unfold. cbn [fst snd].
  rewrite geb_shift.
  destruct (depth >=? maxDepth - 1); cbn [orb] in *.
  { by injection Hrun as <-. }
  destruct (bool_decide (h ∈ st.2)) eqn:Hv.
  { apply bool_decide_eq_true_1 in Hv. injection Hrun as <-.
    rewrite bool_decide_eq_true_2; [done|]. by apply elem_of_union_r. }
  apply bool_decide_eq_false_1 in Hv.
  destruct (decide (h = h1)) as [->|Hne].
  { rewrite h1_fresh in Hrun. injection Hrun as <-.
    rewrite bool_decide_eq_true_2; [done|].
    by apply elem_of_union_l, elem_of_singleton. }
  rewrite bool_decide_eq_false_2.
  2:{ intros [?%elem_of_singleton|?]%elem_of_union; done. }
  rewrite lookup_insert_ne by done.
  destruct (evs !! h) as [e|]; [|by injection Hrun as <-].
  rewrite <- (assoc_L (++)).
  replace ({[h]} ∪ ({[h1]} ∪ st.2)) with ({[h1]} ∪ ({[h]} ∪ st.2) : gset string)
    by (rewrite !(assoc_L (∪)); f_equal; apply (comm_L (∪))).
  set (st1 := (st.1 ++ [e], {[h]} ∪ st.2)) in *.
  change (pre ++ (st.1 ++ [e])) with (pre ++ st1.1).
  change ({[h1]} ∪ ({[h]} ∪ st.2)) with ({[h1]} ∪ st1.2).
  clearbody st1. revert st1 Hrun.
  induction (Parents e) as [|p ps IHps]; intros st1 Hfold.
  - by injection Hfold as <-.
  - rewrite visit_parents_cons in Hfold. rewrite visit_parents_cons.
    destruct (traverse evs (maxDepth - 1) fuel p (depth + 1) st1) as [st2|] eqn:Hp.
    2:{ by rewrite visit_parents_None in Hfold. }
    rewrite (IH _ _ _ _ pre Hp). by apply IHps.
Qed.

End ChainExtend.

Lemma GetEventChain_nonpositive hash maxDepth bc :
  maxDepth ≤ 0 → GetEventChain hash maxDepth bc = (Ok [], bc).
Proof.
  intros Hd. unfold GetEventChain, GetEventChain_fuel, chain_fuel.
  rewrite traverse_unfold.
  destruct (0 >=? maxDepth) eqn:Hge; [done|].
  rewrite Z.geb_leb in Hge. apply Z.leb_gt in Hge. lia.
Qed.

Lemma GetEventChain_Ok_inv hash maxDepth bc chain :
  GetEventChain hash maxDepth bc = (Ok chain, bc) →
  ∃ visited, traverse (events bc) maxDepth (chain_fuel maxDepth) hash 0 ([], ∅)
             = Some (chain, visited).
Proof.
  unfold GetEventChain, GetEventChain_fuel.
  destruct (traverse _ _ _ _ _ _) as [[c v]|]; [|done].
  cbn. intros [= <-]. by exists v.
Qed.

Section ChainHistory.

Context (P : Primitives).

(** The chain of a newly stored event with one parent is the event
    followed by the chain that the parent had, with one level less. *)
Lemma GetEventChain_accepted_fresh e now bc h0 maxDepth chain0 :
  events bc !! hash_of P e = None →
  Parents e = [h0] →
  1 ≤ maxDepth →
  GetEventChain h0 (maxDepth - 1) bc = (Ok chain0, bc) →
  GetEventChain (hash_of P e) maxDepth (accepted P e now bc)
  = (Ok (e :: chain0), accepted P e now bc).
Proof.
  intros Hfresh Hpar Hd [visited Hrun]%GetEventChain_Ok_inv.
  unfold GetEventChain, GetEventChain_fuel, chain_fuel.
  rewrite traverse_unfold; cbn [fst snd events accepted].
  destruct (0 >=? maxDepth) eqn:Hge.
  { apply Z.geb_le in Hge. lia. }
  cbn [orb]. rewrite bool_decide_eq_false_2 by apply not_elem_of_empty.
  rewrite lookup_insert_eq, Hpar, visit_parents_cons. cbn [visit_parents foldl].
  replace (chain_fuel (maxDepth - 1)) with (Z.to_nat maxDepth) in Hrun
    by (unfold chain_fuel; lia).
  pose proof (traverse_below_new (events bc) maxDepth (hash_of P e) e Hfresh
                _ _ _ _ _ [e] Hrun) as Hnew.
  cbn [fst snd app] in Hnew. cbn [fst snd app].
  change (0 + 1) with 1 in *.
  by rewrite Hnew.
Qed.

Lemma GetEventChain_accepted_root e now bc maxDepth :
  Parents e = [] →
  GetEventChain (hash_of P e) maxDepth (accepted P e now bc)
  = (Ok (take (Z.to_nat maxDepth) [e]), accepted P e now bc).
Proof.
  intros Hpar. destruct (decide (maxDepth ≤ 0)) as [Hd|Hd].
  { rewrite GetEventChain_nonpositive by done.
    by replace (Z.to_nat maxDepth) with 0%nat by lia. }
  unfold GetEventChain, GetEventChain_fuel, chain_fuel.
  rewrite traverse_unfold; cbn [fst snd events accepted].
  destruct (0 >=? maxDepth) eqn:Hge.
  { apply Z.geb_le in Hge. lia. }
  cbn [orb]. rewrite bool_decide_eq_false_2 by apply not_elem_of_empty.
  rewrite lookup_insert_eq, Hpar. cbn.
  destruct (Z.to_nat maxDepth) eqn:Hn; [lia|]. cbn. by rewrite take_nil.
Qed.

End ChainHistory.

Section LinearHistory.

Context (P : Primitives).

Lemma linked_snoc prev es e :
  linked P prev (es ++ [e])
  ↔ linked P prev es
    ∧ Parents e = match last es with
                  | Some e' => [hash_of P e']
                  | None => prev
                  end.
Proof.
  revert prev. induction es as [|e0 es IH]; intros prev; cbn.
  - tauto.
  - rewrite IH. destruct es as [|e1 es]; cbn; [tauto|].
    destruct (last (e1 :: es)) eqn:Hl; [tauto|].
    by apply last_None in Hl.
Qed.

Lemma accepted_fresh_lookup calls bc0 e :
  events bc0 !! hash_of P e = None →
  hash_of P e ∉ hash_of P <$> calls.*1 →
  events (foldl (λ b c, accepted P c.1 c.2 b) bc0 calls) !! hash_of P e = None.
Proof.
  intros H0 Hnotin. rewrite foldl_accepted_events. unfold last_call.
  destruct (last (filter _ calls)) as [c|] eqn:Hlast; [|done].
  apply last_Some_elem_of, list_elem_of_filter in Hlast as [Hh Hc].
  exfalso. apply Hnotin. cbn in Hh. rewrite <- Hh.
  apply list_elem_of_fmap. exists c.1. split; [done|].
  apply list_elem_of_fmap. by exists c.
Qed.

Lemma linear_history_foldl calls : ∀ bc0,
  (∀ c, c ∈ calls → events bc0 !! hash_of P c.1 = None) →
  linked P [] calls.*1 →
  NoDup (hash_of P <$> calls.*1) →
  ∀ e now maxDepth,
    last calls = Some (e, now) →
    GetEventChain (hash_of P e) maxDepth
      (foldl (λ b c, accepted P c.1 c.2 b) bc0 calls)
    = (Ok (take (Z.to_nat maxDepth) (reverse calls.*1)),
       foldl (λ b c, accepted P c.1 c.2 b) bc0 calls).
Proof.
  induction calls as [|c calls IH] using rev_ind;
    intros bc0 Hfresh Hlinked Hnd e now maxDepth Hlast; [done|].
  rewrite last_snoc in Hlast. injection Hlast as ->.
  rewrite fmap_app in Hlinked, Hnd. cbn in Hlinked, Hnd.
  apply linked_snoc in Hlinked as [Hlinked Hpar].
  rewrite fmap_app in Hnd. apply NoDup_app in Hnd as (Hnd & Hnotin & _).
  assert (hash_of P e ∉ hash_of P <$> calls.*1) as Hnew.
  { intros Hin. apply (Hnotin _ Hin). cbn. by left. }
  rewrite foldl_app, fmap_app, reverse_app. cbn [fmap list_fmap fst reverse].
  change (foldl _ ?b [(e, now)]) with (accepted P e now b).
  change (reverse [e]) with [e]. cbn [app].
  destruct (decide (maxDepth ≤ 0)) as [Hd|Hd].
  { rewrite GetEventChain_nonpositive by done.
    by replace (Z.to_nat maxDepth) with 0%nat by lia. }
  assert (∀ c, c ∈ calls → events bc0 !! hash_of P c.1 = None) as Hfresh'.
  { intros c Hc. apply Hfresh, elem_of_app. by left. }
  destruct (last calls) as [[e' now']|] eqn:Hl.
  - rewrite fmap_last, Hl in Hpar. cbn in Hpar.
    rewrite (GetEventChain_accepted_fresh P e now _ (hash_of P e') maxDepth
               (take (Z.to_nat (maxDepth - 1)) (reverse calls.*1))).
    + replace (Z.to_nat maxDepth) with (S (Z.to_nat (maxDepth - 1))) by lia.
      reflexivity.
    + apply accepted_fresh_lookup; [|done].
      apply (Hfresh (e, now)), elem_of_app. right. by left.
    + exact Hpar.
    + lia.
    + by apply (IH bc0 Hfresh' Hlinked Hnd e' now').
  - apply last_None in Hl. subst calls. cbn in Hpar. cbn [fmap list_fmap reverse].
    by apply GetEventChain_accepted_root.
Qed.

(** X8. When [AddEvent] accepts an event whose hash was not stored
    before, the chain of the new event is the event alone if it has no
    parents, and, if it has one parent, the event followed by the chain
    that the parent had in the store before, taken with one level less. *)
Theorem GetEventChain_after_AddEvent (e : Event) (now : Time)
    (bc bc' : Blockchain) (maxDepth : Z) :
  AddEvent P e now bc = (Ok tt, bc') →
  GetEvent (hash_of P e) bc = (Ok None, bc) →
  1 ≤ maxDepth →
  (Parents e = [] →
   GetEventChain (hash_of P e) maxDepth bc' = (Ok [e], bc'))
  ∧ (∀ h0 chain0,
       Parents e = [h0] →
       GetEventChain h0 (maxDepth - 1) bc = (Ok chain0, bc) →
       GetEventChain (hash_of P e) maxDepth bc' = (Ok (e :: chain0), bc')).
Proof.
  intros [_ ->]%AddEvent_Ok_inv Hget Hd.
  unfold GetEvent, gets in Hget. injection Hget as Hfresh.
  split.
  - intros Hpar. rewrite (GetEventChain_accepted_root P e now bc maxDepth Hpar).
    destruct (Z.to_nat maxDepth) eqn:Hn; [lia|]. cbn. by rewrite take_nil.
  - intros h0 chain0 Hpar Hchain.
    by apply (GetEventChain_accepted_fresh P e now bc h0).
Qed.

(** X9. A history of events that are added one after the other, each
    with the hash of the one before it as its only parent and the first
    without parents, with hashes that differ from each other and from
    those already stored, comes back from [GetEventChain] on the last
    event newest first, cut at the depth bound. *)
Theorem linear_history_chain (calls : list (Event * Time)) (bc0 bc : Blockchain)
    (e : Event) (now : Time) (maxDepth : Z) :
  AddEvents P calls bc0 = (Ok tt, bc) →
  (∀ c, c ∈ calls → GetEvent (hash_of P c.1) bc0 = (Ok None, bc0)) →
  linked P [] calls.*1 →
  NoDup (hash_of P <$> calls.*1) →
  last calls = Some (e, now) →
  GetEventChain (hash_of P e) maxDepth bc
  = (Ok (take (Z.to_nat maxDepth) (reverse calls.*1)), bc).
Proof.
  intros [-> _]%AddEvents_Ok_inv Hfresh Hlinked Hnd Hlast.
  apply (linear_history_foldl calls bc0) with (now := now); try done.
  intros c Hc. specialize (Hfresh c Hc).
  unfold GetEvent, gets in Hfresh. by injection Hfresh.
Qed.

End LinearHistory.

(** ** An event of CreateEvent, whatever the keys *)

Section CreatedOutcome.

Context (P : Primitives).

(** X10. An event that [CreateEvent] returns, for whatever public and
    private key, carries well-formed hex in [AuthorPubKey] and
    [Signature]: [AddEvent] never rejects it for a malformed key or
    signature.  Under the contract of [crypto/ed25519], with a public key
    of [PublicKeySize] bytes [AddEvent] either accepts it or returns the
    error of a failed signature check, according to [ed25519.Verify] of
    the signature under the public key given to [CreateEvent]; with a
    public key of another length it panics. *)
Theorem created_event_outcome :
  ed25519_contract P →
  ∀ eventType description payload parents pub priv now bc e,
    CreateEvent P eventType description payload parents pub priv now bc
      = (Ok e, bc) →
    hex.DecodeString (AuthorPubKey e) = inr pub
    ∧ (∃ sig, ed25519_Sign P priv (list_byte_of_string (hash_of P e)) = Some sig
              ∧ hex.DecodeString (Signature e) = inr sig
              ∧ ∀ now' bc',
                  AddEvent P e now' bc'
                  = match ed25519_Verify P pub
                            (list_byte_of_string (hash_of P e)) sig with
                    | Some true => (Ok tt, accepted P e now' bc')
                    | Some false =>
                        (Err (EventVerificationFailed SignatureVerificationFailed),
                         bc')
                    | None => (Panic "ed25519: bad public key length", bc')
                    end)
    ∧ (∀ now' bc',
         List.length pub = PublicKeySize ↔
         is_Panic (AddEvent P e now' bc').1 = false).
Proof.
  intros HC eventType description payload parents pub priv now bc e Hcreate.
  rewrite CreateEvent_run in Hcreate.
  set (ue := unsigned_event P eventType description payload parents pub now) in *.
  destruct (ed25519_Sign P priv (list_byte_of_string (hash_of P ue)))
    as [sig|] eqn:Hsign; [|done].
  injection Hcreate as <-.
  assert (Hrun : ∀ now' bc',
    AddEvent P (with_Signature ue (hex.EncodeToString sig)) now' bc'
    = match ed25519_Verify P pub (list_byte_of_string (hash_of P ue)) sig with
      | Some true =>
          (Ok tt, accepted P (with_Signature ue (hex.EncodeToString sig)) now' bc')
      | Some false =>
          (Err (EventVerificationFailed SignatureVerificationFailed), bc')
      | None => (Panic "ed25519: bad public key length", bc')
      end).
  { intros now' bc'. rewrite AddEvent_run. unfold verdict, verifyEvent; cbn.
    rewrite !hex_Decode_Encode. unfold bind. rewrite HashEvent_run.
    change (hash_of P (with_Signature ue (hex.EncodeToString sig)))
      with (hash_of P ue).
    by destruct (ed25519_Verify P pub _ sig) as [[]|]. }
  split; [apply hex_Decode_Encode|]. split.
  - exists sig. split; [exact Hsign|]. split; [apply hex_Decode_Encode|exact Hrun].
  - intros now' bc'. rewrite Hrun. split.
    + intros Hlen.
      by destruct (verify_returns P HC pub (list_byte_of_string (hash_of P ue)) sig Hlen)
        as [[] ->].
    + intros Hnp. destruct (decide (List.length pub = PublicKeySize)) as [|Hlen]; [done|].
      by rewrite (verify_key_size P HC _ _ _ Hlen) in Hnp.
Qed.

End CreatedOutcome.

(** ** The further properties, on the model *)

Lemma Model_S12_reachable : reachable Model.prims Model.S12.
Proof. apply AddEvents_reachable, reachable_New. Qed.

Lemma Model_S12_run :
  AddEvents Model.prims [(Model.E1, 10); (Model.E2, 20)] New = (Ok tt, Model.S12).
Proof. by_evaluation. Qed.

Lemma Model_E2_created :
  CreateEvent Model.prims "state_change" "second"
    (Some ∅) [hash_of Model.prims Model.E1] Model.pub Model.priv 2 New
  = (Ok Model.E2, New).
Proof. by_evaluation. Qed.

Lemma reachable_events_verified_witness :
  reachable Model.prims Model.S12
  ∧ GetEvent (hash_of Model.prims Model.E2) Model.S12 = (Ok (Some Model.E2), Model.S12)
  ∧ verifyEvent Model.prims Model.E2 Model.S12 = (Ok tt, Model.S12)
  ∧ ∃ ags a, GetAgents Model.S12 = (Ok ags, Model.S12)
             ∧ ags !! AuthorPubKey Model.E2 = Some a.
Proof.
  assert (GetEvent (hash_of Model.prims Model.E2) Model.S12
          = (Ok (Some Model.E2), Model.S12)) as Hget by by_evaluation.
  destruct (reachable_events_verified Model.prims Model.S12 Model_S12_reachable
              _ _ Hget) as (_ & Hv & Ha).
  split; [exact Model_S12_reachable|]. split; [exact Hget|].
  split; [exact Hv|exact Ha].
Defined.

Lemma reachable_registry_consistent_witness :
  reachable Model.prims Model.S12
  ∧ agents Model.S12 !! hex.EncodeToString Model.pub
    = Some {| PubKey := hex.EncodeToString Model.pub;
              LastEventHash := hash_of Model.prims Model.E2;
              LastSeen := 20 |}
  ∧ (∃ e, GetEvent (hash_of Model.prims Model.E2) Model.S12
          = (Ok (Some e), Model.S12))
  ∧ String.length (hex.EncodeToString Model.pub) = 64%nat.
Proof.
  assert (agents Model.S12 !! hex.EncodeToString Model.pub
          = Some {| PubKey := hex.EncodeToString Model.pub;
                    LastEventHash := hash_of Model.prims Model.E2;
                    LastSeen := 20 |}) as Hlook by by_evaluation.
  destruct (reachable_registry_consistent Model.prims Model.S12
              Model_S12_reachable (agents Model.S12) _ _ eq_refl Hlook)
    as (_ & Hlast & _ & Hlen).
  split; [exact Model_S12_reachable|]. split; [exact Hlook|].
  split; [exact Hlast|exact (Hlen Model_contract)].
Defined.

Lemma AddEvents_store_contents_witness :
  AddEvents Model.prims [(Model.E1, 10); (Model.E2, 20)] New = (Ok tt, Model.S12)
  ∧ GetEvent (hash_of Model.prims Model.E1) Model.S12
    = (Ok (Some Model.E1), Model.S12)
  ∧ GetEvent "no such hash" Model.S12 = (Ok None, Model.S12).
Proof.
  destruct (AddEvents_store_contents Model.prims _ _ _ Model_S12_run) as [Hev _].
  split; [exact Model_S12_run|]. split.
  - rewrite (Hev (hash_of Model.prims Model.E1)). by_evaluation.
  - rewrite (Hev "no such hash"). by_evaluation.
Defined.

Lemma GetRecentEvents_contents_witness :
  range_order range_entries
  ∧ ∃ l, GetRecentEvents range_entries 1 Model.S12 = (Ok l, Model.S12)
         ∧ NoDup l
         ∧ ∀ e, e ∈ l → ∃ h, GetEvent h Model.S12 = (Ok (Some e), Model.S12).
Proof.
  assert (Z.of_nat (size (events Model.S12)) < 2 ^ 63) as Hsize by by_evaluation.
  destruct (GetRecentEvents_contents Model.prims range_entries 1 Model.S12
              range_entries_order Hsize ltac:(lia))
    as (l & Hrun & Hin & Hnd & _).
  split; [exact range_entries_order|]. exists l.
  split; [exact Hrun|]. split; [|exact Hin].
  apply Hnd. apply AddEvents_events_wf, New_events_wf.
Defined.

Lemma GetEventChain_complete_witness :
  Z.of_nat (size (events Model.Scycle)) ≤ 2
  ∧ ∃ chain,
      GetEventChain (hash_of Model.prims Model.CA) 2 Model.Scycle
        = (Ok chain, Model.Scycle)
      ∧ Model.CA ∈ chain ∧ Model.CB ∈ chain.
Proof.
  assert (Z.of_nat (size (events Model.Scycle)) ≤ 2) as Hsize by by_evaluation.
  destruct (GetEventChain_complete (hash_of Model.prims Model.CA) 2 Model.Scycle Hsize)
    as (chain & Hrun & Hiff).
  assert (events Model.Scycle !! hash_of Model.prims Model.CA = Some Model.CA)
    as HA by by_evaluation.
  assert (events Model.Scycle !! hash_of Model.prims Model.CB = Some Model.CB)
    as HB by by_evaluation.
  assert (hash_of Model.prims Model.CB ∈ Parents Model.CA) as Hpar by by_evaluation.
  split; [exact Hsize|]. exists chain. split; [exact Hrun|]. split.
  - apply Hiff. exists 0%nat, (hash_of Model.prims Model.CA).
    split; [apply reach_here|exact HA].
  - apply Hiff. exists 1%nat, (hash_of Model.prims Model.CB). split; [|exact HB].
    eapply reach_hop; [apply reach_here|exact HA|exact Hpar].
Defined.

Lemma GetEventChain_after_AddEvent_witness :
  AddEvent Model.prims Model.E2 20 Model.S1 = (Ok tt, Model.S12)
  ∧ GetEvent (hash_of Model.prims Model.E2) Model.S1 = (Ok None, Model.S1)
  ∧ Parents Model.E2 = [hash_of Model.prims Model.E1]
  ∧ GetEventChain (hash_of Model.prims Model.E1) (10 - 1) Model.S1
    = (Ok [Model.E1], Model.S1)
  ∧ GetEventChain (hash_of Model.prims Model.E2) 10 Model.S12
    = (Ok [Model.E2; Model.E1], Model.S12).
Proof.
  assert (AddEvent Model.prims Model.E2 20 Model.S1 = (Ok tt, Model.S12)) as Hadd
    by by_evaluation.
  assert (GetEvent (hash_of Model.prims Model.E2) Model.S1 = (Ok None, Model.S1))
    as Hfresh by by_evaluation.
  assert (Parents Model.E2 = [hash_of Model.prims Model.E1]) as Hpar by by_evaluation.
  assert (GetEventChain (hash_of Model.prims Model.E1) (10 - 1) Model.S1
          = (Ok [Model.E1], Model.S1)) as Hchain by by_evaluation.
  destruct (GetEventChain_after_AddEvent Model.prims Model.E2 20 Model.S1 Model.S12 10
              Hadd Hfresh ltac:(lia)) as [_ Hext].
  split; [exact Hadd|]. split; [exact Hfresh|]. split; [exact Hpar|].
  split; [exact Hchain|]. exact (Hext _ _ Hpar Hchain).
Defined.

Lemma linear_history_chain_witness :
  AddEvents Model.prims [(Model.E1, 10); (Model.E2, 20)] New = (Ok tt, Model.S12)
  ∧ linked Model.prims [] [Model.E1; Model.E2]
  ∧ NoDup (hash_of Model.prims <$> [Model.E1; Model.E2])
  ∧ GetEventChain (hash_of Model.prims Model.E2) 10 Model.S12
    = (Ok [Model.E2; Model.E1], Model.S12)
  ∧ GetEventChain (hash_of Model.prims Model.E2) 1 Model.S12
    = (Ok [Model.E2], Model.S12).
Proof.
  assert (linked Model.prims [] [Model.E1; Model.E2]) as Hlinked.
  { split; [by_evaluation|]. split; [by_evaluation|exact I]. }
  assert (NoDup (hash_of Model.prims <$> [Model.E1; Model.E2])) as Hnd
    by by_evaluation.
  assert (∀ c, c ∈ [(Model.E1, 10); (Model.E2, 20)] →
               GetEvent (hash_of Model.prims c.1) New = (Ok None, New)) as Hfresh.
  { intros c _. reflexivity. }
  split; [exact Model_S12_run|]. split; [exact Hlinked|]. split; [exact Hnd|].
  split.
  - exact (linear_history_chain Model.prims _ New Model.S12 Model.E2 20 10
             Model_S12_run Hfresh Hlinked Hnd eq_refl).
  - exact (linear_history_chain Model.prims _ New Model.S12 Model.E2 20 1
             Model_S12_run Hfresh Hlinked Hnd eq_refl).
Defined.

Lemma created_event_outcome_witness :
  CreateEvent Model.prims "init" "first" (Some ∅) [] Model.pub Model.priv 1 New
    = (Ok Model.E1, New)
  ∧ hex.DecodeString (AuthorPubKey Model.E1) = inr Model.pub
  ∧ is_Panic (AddEvent Model.prims Model.E1 10 New).1 = false.
Proof.
  destruct (created_event_outcome Model.prims Model_contract
              "init" "first" (Some ∅) [] Model.pub Model.priv 1 New Model.E1
              Model_E1_created) as (Hkey & _ & Hlen).
  split; [exact Model_E1_created|]. split; [exact Hkey|].
  apply (Hlen 10 New). reflexivity.
Defined.

Lemma same_payload_one_event_witness :
  AddEvents Model.prims ([(Model.E1, 10)] ++ [(Model.E1', 20)]) New
    = (Ok tt, Model.S11')
  ∧ Data Model.E1 = Data Model.E1'
  ∧ size (events Model.S11') = 1%nat
  ∧ GetRecentEvents range_entries 3 Model.S11' = (Ok [Model.E1'], Model.S11').
Proof.
  assert (AddEvents Model.prims ([(Model.E1, 10)] ++ [(Model.E1', 20)]) New
          = (Ok tt, Model.S11')) as Hrun by by_evaluation.
  assert (Data Model.E1 = Data Model.E1') as HD by by_evaluation.
  destruct same_payload_one_event with (P := Model.prims) as [_ Hone].
  destruct (Hone [(Model.E1, 10)] Model.E1' 20 Model.S11' Hrun) as (_ & Hsize & Hrecent).
  { intros c ->%list_elem_of_singleton. exact HD. }
  split; [exact Hrun|]. split; [exact HD|]. split; [exact Hsize|].
  apply Hrecent; [exact range_entries_order|lia].
Defined.

(** * internal/config and internal/llm *)

Section ConfigProperties.

Import PrimFloat.

Lemma default_temperature_tests :
  PrimFloat.eqb config.default_temperature 0%float = false
  ∧ PrimFloat.ltb config.default_temperature 0%float = false
  ∧ PrimFloat.ltb 2%float config.default_temperature = false.
Proof. repeat split. Qed.

Lemma applyDefaults_fixpoint (c : config.Config) :
  config.applyDefaults (config.applyDefaults c) = config.applyDefaults c.
Proof.
  destruct c as [[di mec] [ep key model mt temp ts]].
  unfold config.applyDefaults; cbn [config.Agent config.LLM
    config.DecisionInterval config.MaxEventChain config.APIEndpoint config.APIKey
    config.Model config.MaxTokens config.Temperature config.TimeoutSeconds].
  f_equal; f_equal.
  - destruct (di =? 0) eqn:H; [reflexivity|by rewrite H].
  - destruct (mec =? 0) eqn:H; [reflexivity|by rewrite H].
  - destruct (decide (model = EmptyString)) as [|H]; [reflexivity|].
    by rewrite decide_False.
  - destruct (mt =? 0) eqn:H; [reflexivity|by rewrite H].
  - destruct (PrimFloat.eqb temp 0) eqn:H; [reflexivity|by rewrite H].
  - destruct (ts =? 0) eqn:H; [reflexivity|by rewrite H].
Qed.

(** X11. [applyDefaults] gives every zero field among the decision
    interval, the maximal chain length, the model, the token limit, the
    temperature and the timeout its default, so that none of them is zero
    (or empty) afterwards; it leaves the endpoint and the key alone, and
    it changes nothing in a configuration without zero fields: applying it
    twice is applying it once. *)
Theorem applyDefaults_fills (c : config.Config) :
  let d := config.applyDefaults c in
  config.applyDefaults d = d
  ∧ config.DecisionInterval (config.Agent d) ≠ 0
  ∧ config.MaxEventChain (config.Agent d) ≠ 0
  ∧ config.Model (config.LLM d) ≠ EmptyString
  ∧ config.MaxTokens (config.LLM d) ≠ 0
  ∧ PrimFloat.eqb (config.Temperature (config.LLM d)) 0%float = false
  ∧ config.TimeoutSeconds (config.LLM d) ≠ 0
  ∧ config.APIEndpoint (config.LLM d) = config.APIEndpoint (config.LLM c)
  ∧ config.APIKey (config.LLM d) = config.APIKey (config.LLM c)
  ∧ (config.DecisionInterval (config.Agent c) ≠ 0 →
     config.MaxEventChain (config.Agent c) ≠ 0 →
     config.Model (config.LLM c) ≠ EmptyString →
     config.MaxTokens (config.LLM c) ≠ 0 →
     PrimFloat.eqb (config.Temperature (config.LLM c)) 0%float = false →
     config.TimeoutSeconds (config.LLM c) ≠ 0 →
     d = c).
Proof.
  intros d. split; [apply applyDefaults_fixpoint|].
  destruct c as [[di mec] [ep key model mt temp ts]]. subst d.
  unfold config.applyDefaults; cbn [config.Agent config.LLM
    config.DecisionInterval config.MaxEventChain config.APIEndpoint config.APIKey
    config.Model config.MaxTokens config.Temperature config.TimeoutSeconds].
  split. { destruct (di =? 0) eqn:H; [done|]. by apply Z.eqb_neq. }
  split. { destruct (mec =? 0) eqn:H; [done|]. by apply Z.eqb_neq. }
  split. { by destruct (decide (model = EmptyString)). }
  split. { destruct (mt =? 0) eqn:H; [done|]. by apply Z.eqb_neq. }
  split. { by destruct (PrimFloat.eqb temp 0) eqn:H. }
  split. { destruct (ts =? 0) eqn:H; [done|]. by apply Z.eqb_neq. }
  split; [done|]. split; [done|].
  intros H1%Z.eqb_neq H2%Z.eqb_neq H3 H4%Z.eqb_neq H5 H6%Z.eqb_neq.
  by rewrite H1, H2, H4, H5, H6, decide_False.
Qed.

Lemma validate_None_iff (c : config.Config) :
  config.validate c = None ↔
  config.APIEndpoint (config.LLM c) ≠ EmptyString
  ∧ config.Second ≤ config.DecisionInterval (config.Agent c)
  ∧ 10 ≤ config.MaxTokens (config.LLM c)
  ∧ PrimFloat.ltb (config.Temperature (config.LLM c)) 0%float = false
  ∧ PrimFloat.ltb 2%float (config.Temperature (config.LLM c)) = false.
Proof.
  unfold config.validate.
  destruct (decide (config.APIEndpoint (config.LLM c) = EmptyString)) as [He|He].
  { split; [done|]. by intros [? _]. }
  destruct (Z.ltb_spec (config.DecisionInterval (config.Agent c)) config.Second).
  { split; [done|]. intros (_ & ? & _). lia. }
  destruct (Z.ltb_spec (config.MaxTokens (config.LLM c)) 10).
  { split; [done|]. intros (_ & _ & ? & _). lia. }
  destruct (PrimFloat.ltb (config.Temperature (config.LLM c)) 0).
  { split; [done|]. by intros (_ & _ & _ & ? & _). }
  destruct (PrimFloat.ltb 2 (config.Temperature (config.LLM c))).
  { split; [done|]. by intros (_ & _ & _ & _ & ?). }
  done.
Qed.

(** X12. Every configuration that [Load] returns passes [validate] and
    is unchanged by [applyDefaults]: its endpoint is not empty, its
    decision interval is at least one second, its token limit at least
    10, its temperature neither below 0 nor above 2, and its model,
    maximal chain length and timeout are not zero.  ([validate] checks
    neither the sign of the maximal chain length nor that of the
    timeout.) *)
Theorem Load_postcondition ReadFile Unmarshal (path : string) (c : config.Config) :
  config.Load ReadFile Unmarshal path = inr c →
  config.validate c = None
  ∧ config.applyDefaults c = c
  ∧ config.APIEndpoint (config.LLM c) ≠ EmptyString
  ∧ config.Second ≤ config.DecisionInterval (config.Agent c)
  ∧ 10 ≤ config.MaxTokens (config.LLM c)
  ∧ PrimFloat.ltb (config.Temperature (config.LLM c)) 0%float = false
  ∧ PrimFloat.ltb 2%float (config.Temperature (config.LLM c)) = false
  ∧ PrimFloat.eqb (config.Temperature (config.LLM c)) 0%float = false
  ∧ config.Model (config.LLM c) ≠ EmptyString
  ∧ config.MaxEventChain (config.Agent c) ≠ 0
  ∧ config.TimeoutSeconds (config.LLM c) ≠ 0.
Proof.
  unfold config.Load.
  destruct (ReadFile path) as [|data]; [done|].
  destruct (Unmarshal data) as [|c0]; [done|].
  destruct (config.validate (config.applyDefaults c0)) eqn:Hv; [done|].
  intros [= <-].
  pose proof (proj1 (validate_None_iff _) Hv) as (He & Hd & Hm & Ht0 & Ht2).
  pose proof (applyDefaults_fixpoint c0) as Hfix.
  destruct c0 as [[di mec] [ep key model mt temp ts]].
  split; [exact Hv|]. split; [exact Hfix|].
  split; [exact He|]. split; [exact Hd|]. split; [exact Hm|].
  split; [exact Ht0|]. split; [exact Ht2|].
  unfold config.applyDefaults; cbn [config.Agent config.LLM
    config.DecisionInterval config.MaxEventChain config.APIEndpoint config.APIKey
    config.Model config.MaxTokens config.Temperature config.TimeoutSeconds].
  split. { by destruct (PrimFloat.eqb temp 0) eqn:H. }
  split. { by destruct (decide (model = EmptyString)). }
  split. { destruct (mec =? 0) eqn:H; [done|]. by apply Z.eqb_neq. }
  destruct (ts =? 0) eqn:H; [done|]. by apply Z.eqb_neq.
Qed.

(** X13. [Load] returns the error of [os.ReadFile], or else that of
    [yaml.Unmarshal], wrapped.  For a file that decodes to [c0] it
    returns [applyDefaults c0], and does so exactly when the endpoint of
    [c0] is not empty, its decision interval is 0 (absent) or at least
    one second, its token limit is 0 (absent) or at least 10, and the
    temperature after defaults is neither below 0 nor above 2; otherwise
    it returns the error of [validate], wrapped.  No absent field other
    than the endpoint makes [Load] fail. *)
Theorem Load_accepts ReadFile Unmarshal (path : string) :
  (∀ err, ReadFile path = inl err →
          config.Load ReadFile Unmarshal path = inl (config.ReadFailed err))
  ∧ (∀ data err, ReadFile path = inr data → Unmarshal data = inl err →
       config.Load ReadFile Unmarshal path = inl (config.ParseFailed err))
  ∧ (∀ data c0, ReadFile path = inr data → Unmarshal data = inr c0 →
       (∀ c, config.Load ReadFile Unmarshal path = inr c ↔
          c = config.applyDefaults c0
          ∧ config.APIEndpoint (config.LLM c0) ≠ EmptyString
          ∧ (config.DecisionInterval (config.Agent c0) = 0
             ∨ config.Second ≤ config.DecisionInterval (config.Agent c0))
          ∧ (config.MaxTokens (config.LLM c0) = 0
             ∨ 10 ≤ config.MaxTokens (config.LLM c0))
          ∧ PrimFloat.ltb
              (config.Temperature (config.LLM (config.applyDefaults c0))) 0%float
            = false
          ∧ PrimFloat.ltb 2%float
              (config.Temperature (config.LLM (config.applyDefaults c0)))
            = false)
       ∧ (∀ e, config.Load ReadFile Unmarshal path = inl e →
               ∃ v, config.validate (config.applyDefaults c0) = Some v
                    ∧ e = config.InvalidConfiguration v)).
Proof.
  split; [|split].
  - intros err Hr. unfold config.Load. by rewrite Hr.
  - intros data err Hr Hu. unfold config.Load. by rewrite Hr, Hu.
  - intros data c0 Hr Hu. unfold config.Load. rewrite Hr, Hu. split.
    + intros c.
      assert (config.validate (config.applyDefaults c0) = None ↔
              config.APIEndpoint (config.LLM c0) ≠ EmptyString
              ∧ (config.DecisionInterval (config.Agent c0) = 0
                 ∨ config.Second ≤ config.DecisionInterval (config.Agent c0))
              ∧ (config.MaxTokens (config.LLM c0) = 0
                 ∨ 10 ≤ config.MaxTokens (config.LLM c0))
              ∧ PrimFloat.ltb
                  (config.Temperature (config.LLM (config.applyDefaults c0))) 0%float
                = false
              ∧ PrimFloat.ltb 2%float
                  (config.Temperature (config.LLM (config.applyDefaults c0)))
                = false) as Hiff.
      { rewrite validate_None_iff.
        destruct c0 as [[di mec] [ep key model mt temp ts]].
        unfold config.applyDefaults; cbn [config.Agent config.LLM
          config.DecisionInterval config.MaxEventChain config.APIEndpoint
          config.APIKey config.Model config.MaxTokens config.Temperature
          config.TimeoutSeconds].
        unfold config.Second.
        destruct (Z.eqb_spec di 0), (Z.eqb_spec mt 0); intuition lia. }
      destruct (config.validate (config.applyDefaults c0)) eqn:Hv.
      * split; [done|]. intros [_ H]. by apply Hiff in H.
      * split; [intros [= <-]; split; [done|by apply Hiff]|].
        by intros [-> _].
    + intros e. destruct (config.validate (config.applyDefaults c0)) as [v|]; [|done].
      intros [= <-]. by exists v.
Qed.

(** X14. The configuration of [Example] passes [validate] and is
    unchanged by [applyDefaults]; its values are the defaults: a file that
    sets the endpoint and nothing else loads, when the endpoint is not
    empty, as [Example] with that endpoint, and is rejected for the
    missing endpoint when it is empty. *)
Theorem Example_is_the_default :
  config.validate config.Example = None
  ∧ config.applyDefaults config.Example = config.Example
  ∧ (∀ endpoint,
       config.applyDefaults (config.only_endpoint endpoint)
       = {| config.Agent := config.Agent config.Example;
            config.LLM :=
              {| config.APIEndpoint := endpoint;
                 config.APIKey := config.APIKey (config.LLM config.Example);
                 config.Model := config.Model (config.LLM config.Example);
                 config.MaxTokens := config.MaxTokens (config.LLM config.Example);
                 config.Temperature :=
                   config.Temperature (config.LLM config.Example);
                 config.TimeoutSeconds :=
                   config.TimeoutSeconds (config.LLM config.Example) |} |})
  ∧ (∀ ReadFile Unmarshal path data endpoint,
       ReadFile path = inr data →
       Unmarshal data = inr (config.only_endpoint endpoint) →
       config.Load ReadFile Unmarshal path
       = if decide (endpoint = EmptyString)
         then inl (config.InvalidConfiguration config.EndpointRequired)
         else inr (config.applyDefaults (config.only_endpoint endpoint))).
Proof.
  split; [reflexivity|]. split; [reflexivity|]. split; [reflexivity|].
  intros ReadFile Unmarshal path data endpoint Hr Hu.
  unfold config.Load. rewrite Hr, Hu.
  unfold config.validate; cbn.
  by destruct (decide (endpoint = EmptyString)).
Qed.

(** X15. [NewClient] fails exactly on an empty endpoint, so it succeeds
    on the LLM section of every configuration that [Load] returns; the
    client keeps that section, and its timeout is the configured number
    of seconds, which is not zero, whenever that number of seconds fits a
    [time.Duration] without wrap-around. *)
Theorem NewClient_after_Load :
  (∀ cfg, llm.NewClient cfg = None ↔ config.APIEndpoint cfg = EmptyString)
  ∧ ∀ ReadFile Unmarshal path c,
      config.Load ReadFile Unmarshal path = inr c →
      ∃ client,
        llm.NewClient (config.LLM c) = Some client
        ∧ llm.client_config client = config.LLM c
        ∧ (int_range (config.TimeoutSeconds (config.LLM c) * config.Second) →
           llm.Timeout client
           = config.TimeoutSeconds (config.LLM c) * config.Second
           ∧ llm.Timeout client ≠ 0).
Proof.
  split.
  - intros cfg. unfold llm.NewClient.
    by destruct (decide (config.APIEndpoint cfg = EmptyString)).
  - intros ReadFile Unmarshal path c Hload.
    assert (config.APIEndpoint (config.LLM c) ≠ EmptyString
            ∧ config.TimeoutSeconds (config.LLM c) ≠ 0) as [He Hts].
    { revert Hload. unfold config.Load.
      destruct (ReadFile path) as [|data]; [done|].
      destruct (Unmarshal data) as [|c0]; [done|].
      destruct (config.validate (config.applyDefaults c0)) eqn:Hv; [done|].
      intros [= <-]. apply validate_None_iff in Hv as (He & _). split; [exact He|].
      destruct c0 as [[di mec] [ep key model mt temp ts]]; cbn.
      destruct (ts =? 0) eqn:H; [done|]. by apply Z.eqb_neq. }
    unfold llm.NewClient. rewrite decide_False by done.
    eexists. split; [reflexivity|]. split; [reflexivity|]. cbn.
    intros Hrange. rewrite int_wrap_id by done. split; [reflexivity|].
    unfold config.Second. lia.
Qed.

End ConfigProperties.

Lemma Files_Load :
  config.Load Files.ReadFile Files.Unmarshal Files.path = inr config.Example.
Proof. reflexivity. Qed.

Lemma Load_postcondition_witness :
  config.Load Files.ReadFile Files.Unmarshal Files.path = inr config.Example
  ∧ config.validate config.Example = None
  ∧ config.Second ≤ config.DecisionInterval (config.Agent config.Example)
  ∧ 10 ≤ config.MaxTokens (config.LLM config.Example).
Proof.
  destruct (Load_postcondition Files.ReadFile Files.Unmarshal Files.path
              config.Example Files_Load) as (Hv & _ & _ & Hd & Hm & _).
  split; [exact Files_Load|]. split; [exact Hv|]. split; [exact Hd|exact Hm].
Defined.

Lemma Load_accepts_witness :
  Files.ReadFile Files.path
    = inr (list_byte_of_string "llm: {api_endpoint: ...}")
  ∧ Files.ReadFile "missing.yaml" = inl "open: no such file or directory"%string
  ∧ config.Load Files.ReadFile Files.Unmarshal "missing.yaml"
    = inl (config.ReadFailed "open: no such file or directory")
  ∧ (config.Load Files.ReadFile Files.Unmarshal Files.path = inr config.Example ↔
     config.Example = config.applyDefaults (config.only_endpoint Files.endpoint)
     ∧ Files.endpoint ≠ EmptyString).
Proof.
  assert (Files.ReadFile Files.path
          = inr (list_byte_of_string "llm: {api_endpoint: ...}")) as Hr
    by reflexivity.
  assert (Files.ReadFile "missing.yaml"
          = inl "open: no such file or directory"%string) as Hm by reflexivity.
  destruct (Load_accepts Files.ReadFile Files.Unmarshal Files.path)
    as (_ & _ & Hok).
  destruct (Load_accepts Files.ReadFile Files.Unmarshal "missing.yaml")
    as (Hmiss & _ & _).
  destruct (Hok _ (config.only_endpoint Files.endpoint) Hr eq_refl) as [Hiff _].
  split; [exact Hr|]. split; [exact Hm|]. split; [exact (Hmiss _ Hm)|].
  split.
  - intros Hload. apply Hiff in Hload as (Heq & Hep & _). by split.
  - intros _. exact Files_Load.
Defined.

Lemma NewClient_after_Load_witness :
  config.Load Files.ReadFile Files.Unmarshal Files.path = inr config.Example
  ∧ ∃ client,
      llm.NewClient (config.LLM config.Example) = Some client
      ∧ llm.Timeout client = 30 * config.Second.
Proof.
  destruct NewClient_after_Load as [_ Hnew].
  destruct (Hnew Files.ReadFile Files.Unmarshal Files.path config.Example Files_Load)
    as (client & Hc & _ & Ht).
  split; [exact Files_Load|]. exists client. split; [exact Hc|].
  apply Ht. unfold int_range. by_evaluation.
Defined.

(** * internal/agent *)

Lemma hex_Encode_length bs :
  String.length (hex.EncodeToString bs) = (2 * List.length bs)%nat.
Proof. induction bs as [|b bs IH]; cbn; [done|]. rewrite IH. lia. Qed.

Lemma substring_split n : ∀ s,
  (n ≤ String.length s)%nat →
  ∃ rest, s = (String.substring 0 n s ++ rest)%string
          ∧ String.length (String.substring 0 n s) = n.
Proof.
  induction n as [|n IH]; intros s Hn.
  - exists s. by destruct s.
  - destruct s as [|c s]; cbn in Hn; [lia|].
    destruct (IH s ltac:(lia)) as (rest & Hs & Hl).
    exists rest. cbn. split; [|by rewrite Hl].
    change (String c s = String c (String.substring 0 n s +:+ rest)). by f_equal.
Qed.

Lemma slice_to_Some_inv s n t :
  agent.slice_to s n = Some t →
  ∃ rest, s = (t ++ rest)%string ∧ String.length t = n.
Proof.
  unfold agent.slice_to. destruct (n <=? String.length s)%nat eqn:Hn; [|done].
  intros [= <-]. apply substring_split. by apply Nat.leb_le.
Qed.

Lemma slice_to_is_Some s n :
  is_Some (agent.slice_to s n) ↔ (n ≤ String.length s)%nat.
Proof.
  unfold agent.slice_to. destruct (n <=? String.length s)%nat eqn:Hn.
  - apply Nat.leb_le in Hn. split; [done|by eexists].
  - apply Nat.leb_gt in Hn. split; [by intros [? ?]|lia].
Qed.

Section AgentMethods.

Context (P : Primitives).

Lemma slice_to_key a :
  List.length (agent.pubKey a) = PublicKeySize →
  is_Some (agent.slice_to (agent.PublicKeyHex a) 16).
Proof.
  intros Hlen. apply slice_to_is_Some. unfold agent.PublicKeyHex.
  rewrite hex_Encode_length, Hlen. unfold PublicKeySize. lia.
Qed.

(** [create_and_add], run: the private key decides whether it panics in
    [ed25519.Sign], the verdict of [verifyEvent] on the signed event
    decides the rest. *)
Lemma create_and_add_run wc wa ty desc payload parents a now now' bc :
  let ue := unsigned_event P ty desc (Some payload) parents (agent.pubKey a) now in
  agent.create_and_add P wc wa ty desc payload parents a now now' bc =
    match ed25519_Sign P (agent.privKey a) (list_byte_of_string (hash_of P ue)) with
    | None => (agent.Panicked "ed25519: bad private key", a, bc)
    | Some sig =>
        let e := with_Signature ue (hex.EncodeToString sig) in
        match verdict P e with
        | Ok _ => (agent.Done tt, agent.set_lastEvent a (hash_of P e),
                   accepted P e now' bc)
        | Err err => (agent.Failed (wa (EventVerificationFailed err)), a, bc)
        | Panic msg => (agent.Panicked msg, a, bc)
        end
    end.
Proof.
  intros ue. unfold agent.create_and_add. rewrite CreateEvent_run. fold ue.
  destruct (ed25519_Sign _ _ _) as [sig|]; [|done].
  cbn zeta. rewrite AddEvent_run.
  by destruct (verdict P _) as [[]| |].
Qed.

(** The three ways in which [create_and_add] ends. *)
Lemma create_and_add_cases wc wa ty desc payload parents a now now' bc :
  (∃ e, agent.create_and_add P wc wa ty desc payload parents a now now' bc
          = (agent.Done tt, agent.set_lastEvent a (hash_of P e),
             accepted P e now' bc)
        ∧ verdict P e = Ok tt
        ∧ Data e = {| Type_ := ty; Description := desc;
                      Payload := Some payload;
                      Timestamp := time_RFC3339 P now |}
        ∧ Parents e = parents
        ∧ AuthorPubKey e = agent.PublicKeyHex a)
  ∨ (∃ err, agent.create_and_add P wc wa ty desc payload parents a now now' bc
            = (agent.Failed (wa err), a, bc))
  ∨ (∃ msg, agent.create_and_add P wc wa ty desc payload parents a now now' bc
            = (agent.Panicked msg, a, bc)).
Proof.
  rewrite create_and_add_run. cbn zeta.
  destruct (ed25519_Sign _ _ _) as [sig|]; [|right; right; by eexists].
  destruct (verdict P _) as [[]|err|msg] eqn:Hv.
  - left. eexists. split; [reflexivity|]. by split.
  - right; left. by eexists.
  - right; right. by eexists.
Qed.

(** With a generated key pair it ends in the first way. *)
Lemma create_and_add_keypair wc wa ty desc payload parents a now now' bc :
  ed25519_contract P →
  ed25519_keypair P (agent.pubKey a) (agent.privKey a) →
  ∃ e, agent.create_and_add P wc wa ty desc payload parents a now now' bc
         = (agent.Done tt, agent.set_lastEvent a (hash_of P e),
            accepted P e now' bc)
       ∧ verdict P e = Ok tt
       ∧ Data e = {| Type_ := ty; Description := desc;
                     Payload := Some payload;
                     Timestamp := time_RFC3339 P now |}
       ∧ Parents e = parents
       ∧ AuthorPubKey e = agent.PublicKeyHex a.
Proof.
  intros HC Hkp. rewrite create_and_add_run. cbn zeta.
  set (ue := unsigned_event P ty desc (Some payload) parents (agent.pubKey a) now).
  destruct (sign_verify P HC _ _ (list_byte_of_string (hash_of P ue)) Hkp)
    as (sig & Hsig & Hver).
  rewrite Hsig.
  assert (verdict P (with_Signature ue (hex.EncodeToString sig)) = Ok tt) as Hv.
  { unfold verdict, verifyEvent; cbn. rewrite !hex_Decode_Encode.
    unfold bind. rewrite HashEvent_run.
    change (hash_of P (with_Signature ue (hex.EncodeToString sig)))
      with (hash_of P ue).
    by rewrite Hver. }
  rewrite Hv. eexists. split; [reflexivity|]. by split.
Qed.

(** X16. For an agent with a generated key pair, [CreateInitialEvent]
    succeeds on every store: it stores an event of type
    ["initialization"] without parents, whose [agent_id] is the first 16
    characters of the agent's public key in hex, which passes
    [verifyEvent] and is found by [GetEvent] under the agent's new
    [lastEvent]; the registry entry of the agent names that hash and the
    time of the call, and [GetEventChain] from it is that one event. *)
Theorem CreateInitialEvent_postcondition (a : agent.Agent) (now now' : Time)
    (bc : Blockchain) :
  ed25519_contract P →
  ed25519_keypair P (agent.pubKey a) (agent.privKey a) →
  ∃ e agent_id rest,
    agent.CreateInitialEvent P a now now' bc
      = (agent.Done tt, agent.set_lastEvent a (hash_of P e), accepted P e now' bc)
    ∧ agent.PublicKeyHex a = (agent_id ++ rest)%string
    ∧ String.length agent_id = 16%nat
    ∧ Data e = {| Type_ := "initialization";
                  Description := "Agent initialization in Blockchain Universe";
                  Payload := Some (agent.initial_payload agent_id);
                  Timestamp := time_RFC3339 P now |}
    ∧ Parents e = []
    ∧ AuthorPubKey e = agent.PublicKeyHex a
    ∧ verifyEvent P e (accepted P e now' bc) = (Ok tt, accepted P e now' bc)
    ∧ GetEvent (hash_of P e) (accepted P e now' bc)
        = (Ok (Some e), accepted P e now' bc)
    ∧ agents (accepted P e now' bc) !! agent.PublicKeyHex a
        = Some {| PubKey := agent.PublicKeyHex a;
                  LastEventHash := hash_of P e;
                  LastSeen := now' |}
    ∧ ∀ maxDepth,
        GetEventChain (hash_of P e) maxDepth (accepted P e now' bc)
        = (Ok (take (Z.to_nat maxDepth) [e]), accepted P e now' bc).
Proof.
  intros HC Hkp. unfold agent.CreateInitialEvent.
  destruct (slice_to_key a (keypair_pub_size P HC _ _ Hkp)) as [agent_id Hid].
  rewrite Hid. destruct (slice_to_Some_inv _ _ _ Hid) as (rest & Hhex & Hlen).
  destruct (create_and_add_keypair agent.CreateInitialFailed agent.AddInitialFailed
              "initialization" "Agent initialization in Blockchain Universe"
              (agent.initial_payload agent_id) [] a now now' bc HC Hkp)
    as (e & Hrun & Hv & Hdata & Hpar & Hauthor).
  exists e, agent_id, rest.
  split; [exact Hrun|]. split; [exact Hhex|]. split; [exact Hlen|].
  split; [exact Hdata|]. split; [exact Hpar|]. split; [exact Hauthor|].
  split; [by rewrite verifyEvent_run, Hv|].
  split; [unfold GetEvent, gets; cbn; by rewrite lookup_insert_eq|].
  split; [cbn; by rewrite Hauthor, lookup_insert_eq|].
  intros maxDepth. by apply GetEventChain_accepted_root.
Qed.

(** X17. For an agent with a generated key pair, [createDecisionEvent]
    succeeds on every store and for every decision text, of whatever
    length: it stores an event of type ["state_change"] whose description
    is the text as given and whose parents are the agent's [lastEvent]
    alone, or none when [lastEvent] is empty; the event passes
    [verifyEvent], [lastEvent] becomes its hash, under which [GetEvent]
    finds it, and the registry entry of the agent names that hash and the
    time of the call. *)
Theorem createDecisionEvent_postcondition (decision : string) (a : agent.Agent)
    (now now' : Time) (bc : Blockchain) :
  ed25519_contract P →
  ed25519_keypair P (agent.pubKey a) (agent.privKey a) →
  ∃ e agent_id rest,
    agent.createDecisionEvent P decision a now now' bc
      = (agent.Done tt, agent.set_lastEvent a (hash_of P e), accepted P e now' bc)
    ∧ agent.PublicKeyHex a = (agent_id ++ rest)%string
    ∧ String.length agent_id = 16%nat
    ∧ Data e = {| Type_ := "state_change";
                  Description := decision;
                  Payload := Some (agent.decision_payload agent_id);
                  Timestamp := time_RFC3339 P now |}
    ∧ Parents e = (if decide (agent.lastEvent a = EmptyString)
                   then [] else [agent.lastEvent a])
    ∧ AuthorPubKey e = agent.PublicKeyHex a
    ∧ verifyEvent P e (accepted P e now' bc) = (Ok tt, accepted P e now' bc)
    ∧ GetEvent (hash_of P e) (accepted P e now' bc)
        = (Ok (Some e), accepted P e now' bc)
    ∧ agents (accepted P e now' bc) !! agent.PublicKeyHex a
        = Some {| PubKey := agent.PublicKeyHex a;
                  LastEventHash := hash_of P e;
                  LastSeen := now' |}.
Proof.
  intros HC Hkp. unfold agent.createDecisionEvent.
  destruct (slice_to_key a (keypair_pub_size P HC _ _ Hkp)) as [agent_id Hid].
  rewrite Hid. destruct (slice_to_Some_inv _ _ _ Hid) as (rest & Hhex & Hlen).
  cbn zeta.
  destruct (create_and_add_keypair agent.CreateFailed agent.AddFailed
              "state_change" decision (agent.decision_payload agent_id)
              (if decide (agent.lastEvent a = EmptyString)
               then [] else [agent.lastEvent a]) a now now' bc HC Hkp)
    as (e & Hrun & Hv & Hdata & Hpar & Hauthor).
  exists e, agent_id, rest.
  split; [exact Hrun|]. split; [exact Hhex|]. split; [exact Hlen|].
  split; [exact Hdata|]. split; [exact Hpar|]. split; [exact Hauthor|].
  split; [by rewrite verifyEvent_run, Hv|].
  split; [unfold GetEvent, gets; cbn; by rewrite lookup_insert_eq|].
  cbn. by rewrite Hauthor, lookup_insert_eq.
Qed.

Lemma create_and_add_ends_well wa ty desc payload parents a now now' bc :
  wa = agent.AddInitialFailed ∨ wa = agent.AddFailed →
  ends_well P a now' bc
    (agent.create_and_add P agent.CreateFailed wa ty desc payload parents
       a now now' bc)
  ∧ ends_well P a now' bc
      (agent.create_and_add P agent.CreateInitialFailed wa ty desc payload
         parents a now now' bc).
Proof.
  intros Hwa. split.
  - destruct (create_and_add_cases agent.CreateFailed wa ty desc payload parents
                a now now' bc)
      as [(e & -> & Hv & _ & _ & Ha)|[(err & ->)|(msg & ->)]].
    + left. by exists e.
    + right. eexists. split; [reflexivity|]. split; [done|].
      intros err'. by destruct Hwa as [-> | ->].
    + right. eexists. split; [reflexivity|]. by split.
  - destruct (create_and_add_cases agent.CreateInitialFailed wa ty desc payload
                parents a now now' bc)
      as [(e & -> & Hv & _ & _ & Ha)|[(err & ->)|(msg & ->)]].
    + left. by exists e.
    + right. eexists. split; [reflexivity|]. split; [done|].
      intros err'. by destruct Hwa as [-> | ->].
    + right. eexists. split; [reflexivity|]. by split.
Qed.

Lemma CreateInitialEvent_ends_well a now now' bc :
  ends_well P a now' bc (agent.CreateInitialEvent P a now now' bc).
Proof.
  unfold agent.CreateInitialEvent.
  destruct (agent.slice_to _ _) as [agent_id|].
  - apply create_and_add_ends_well. by left.
  - right. eexists. split; [reflexivity|]. by split.
Qed.

Lemma createDecisionEvent_ends_well decision a now now' bc :
  ends_well P a now' bc (agent.createDecisionEvent P decision a now now' bc).
Proof.
  unfold agent.createDecisionEvent. cbn zeta.
  destruct (agent.slice_to _ _) as [agent_id|].
  - apply create_and_add_ends_well. by right.
  - right. eexists. split; [reflexivity|]. by split.
Qed.

(** [buildPrompt] reads the store and returns a prompt or panics. *)
Lemma buildPrompt_cases range range_agents format_local a bc :
  (∃ prompt, agent.buildPrompt range range_agents format_local a bc
             = (Ok prompt, bc))
  ∨ (∃ msg, agent.buildPrompt range range_agents format_local a bc
            = (Panic msg, bc)).
Proof.
  unfold agent.buildPrompt, bind. rewrite GetRecentEvents_run. cbn zeta.
  destruct (_ >? 5).
  - unfold slice_from. destruct (_ || _); [right; by eexists|].
    unfold GetAgents, gets, call.
    destruct (agent.agent_lines _ _ _); [left|right]; by eexists.
  - unfold GetAgents, gets, call.
    destruct (agent.agent_lines _ _ _); [left|right]; by eexists.
Qed.

Lemma MakeDecision_ends_well range range_agents format_local completion
    a now now' bc :
  ends_well P a now' bc
    (agent.MakeDecision P range range_agents format_local completion
       a now now' bc).
Proof.
  unfold agent.MakeDecision.
  destruct (buildPrompt_cases range range_agents format_local a bc)
    as [[prompt ->]|[msg ->]].
  - destruct (completion prompt) as [err|decision].
    { right. eexists. split; [reflexivity|]. by split. }
    destruct (createDecisionEvent_ends_well decision a now now' bc)
      as [(e & -> & Hv & Ha)|(r & -> & Hr & Hne)].
    + left. by exists e.
    + right. destruct r as [[]|err|msg]; [done| |].
      * eexists. split; [reflexivity|]. split; [done|].
        intros err'. destruct (Hne err') as (_ & Hc & _).
        split; [done|]. split; [done|]. by intros [= ->].
      * eexists. split; [reflexivity|]. by split.
  - right. eexists. split; [reflexivity|]. by split.
Qed.

(** X18. Whatever the keys and the store, each of [CreateInitialEvent],
    [createDecisionEvent] and [MakeDecision] either succeeds, and has then
    added one verified event of the agent and set [lastEvent] to its hash,
    or leaves the agent and the store exactly as they were; the
    ["failed to create (initial) event"] errors are never returned, since
    [CreateEvent] has no error; and the store after the call is one that
    [AddEvent] builds when the store before it is. *)
Theorem agent_methods_atomic range range_agents format_local completion decision
    (a : agent.Agent) (now now' : Time) (bc : Blockchain)
    (res : agent.result unit * agent.Agent * Blockchain) :
  res = agent.CreateInitialEvent P a now now' bc
  ∨ res = agent.createDecisionEvent P decision a now now' bc
  ∨ res = agent.MakeDecision P range range_agents format_local completion
            a now now' bc →
  (agent.is_Done res.1.1 = false → res.1.2 = a ∧ res.2 = bc)
  ∧ (agent.is_Done res.1.1 = true →
     ∃ e, res.2 = (AddEvent P e now' bc).2
          ∧ AddEvent P e now' bc = (Ok tt, accepted P e now' bc)
          ∧ AuthorPubKey e = agent.PublicKeyHex a
          ∧ res.1.2 = agent.set_lastEvent a (hash_of P e)
          ∧ GetEvent (agent.lastEvent res.1.2) res.2 = (Ok (Some e), res.2))
  ∧ (∀ err, res.1.1 ≠ agent.Failed (agent.CreateInitialFailed err)
            ∧ res.1.1 ≠ agent.Failed (agent.CreateFailed err)
            ∧ res.1.1 ≠ agent.Failed (agent.DecisionEventFailed
                                        (agent.CreateFailed err)))
  ∧ (reachable P bc → reachable P res.2).
Proof.
  intros Hres.
  assert (ends_well P a now' bc res) as Hends.
  { destruct Hres as [->|[->| ->]].
    - apply CreateInitialEvent_ends_well.
    - apply createDecisionEvent_ends_well.
    - apply MakeDecision_ends_well. }
  clear Hres.
  destruct Hends as [(e & -> & Hv & Ha)|(r & -> & Hr & Hne)]; cbn [fst snd].
  - assert (AddEvent P e now' bc = (Ok tt, accepted P e now' bc)) as Hadd
      by (by rewrite AddEvent_run, Hv).
    split; [done|]. split.
    { intros _. exists e. rewrite Hadd. split; [done|]. split; [done|].
      split; [done|]. split; [done|].
      unfold GetEvent, gets; cbn. by rewrite lookup_insert_eq. }
    split; [done|].
    intros Hreach. replace (accepted P e now' bc) with (AddEvent P e now' bc).2
      by (by rewrite Hadd).
    by apply reachable_AddEvent.
  - split; [done|]. split; [by rewrite Hr|]. by split.
Qed.

Lemma CreateInitialEvent_Done a now now' bc :
  ed25519_contract P →
  ed25519_keypair P (agent.pubKey a) (agent.privKey a) →
  ∃ e agent_id,
    agent.slice_to (agent.PublicKeyHex a) 16 = Some agent_id
    ∧ agent.CreateInitialEvent P a now now' bc
      = (agent.Done tt, agent.set_lastEvent a (hash_of P e), accepted P e now' bc)
    ∧ verdict P e = Ok tt
    ∧ Data e = {| Type_ := "initialization";
                  Description := "Agent initialization in Blockchain Universe";
                  Payload := Some (agent.initial_payload agent_id);
                  Timestamp := time_RFC3339 P now |}
    ∧ Parents e = []
    ∧ AuthorPubKey e = agent.PublicKeyHex a.
Proof.
  intros HC Hkp. unfold agent.CreateInitialEvent.
  destruct (slice_to_key a (keypair_pub_size P HC _ _ Hkp)) as [agent_id Hid].
  rewrite Hid.
  destruct (create_and_add_keypair agent.CreateInitialFailed agent.AddInitialFailed
              "initialization" "Agent initialization in Blockchain Universe"
              (agent.initial_payload agent_id) [] a now now' bc HC Hkp)
    as (e & Hrun & Hrest).
  by exists e, agent_id.
Qed.

Lemma createDecisionEvent_Done decision a now now' bc :
  ed25519_contract P →
  ed25519_keypair P (agent.pubKey a) (agent.privKey a) →
  ∃ e agent_id,
    agent.slice_to (agent.PublicKeyHex a) 16 = Some agent_id
    ∧ agent.createDecisionEvent P decision a now now' bc
      = (agent.Done tt, agent.set_lastEvent a (hash_of P e), accepted P e now' bc)
    ∧ verdict P e = Ok tt
    ∧ Data e = {| Type_ := "state_change";
                  Description := decision;
                  Payload := Some (agent.decision_payload agent_id);
                  Timestamp := time_RFC3339 P now |}
    ∧ Parents e = (if decide (agent.lastEvent a = EmptyString)
                   then [] else [agent.lastEvent a])
    ∧ AuthorPubKey e = agent.PublicKeyHex a.
Proof.
  intros HC Hkp. unfold agent.createDecisionEvent.
  destruct (slice_to_key a (keypair_pub_size P HC _ _ Hkp)) as [agent_id Hid].
  rewrite Hid. cbn zeta.
  destruct (create_and_add_keypair agent.CreateFailed agent.AddFailed
              "state_change" decision (agent.decision_payload agent_id)
              (if decide (agent.lastEvent a = EmptyString)
               then [] else [agent.lastEvent a]) a now now' bc HC Hkp)
    as (e & Hrun & Hrest).
  by exists e, agent_id.
Qed.

(** The chain of an event that is stored under a hash and names that
    hash as its only parent is the event alone. *)
Lemma GetEventChain_own_parent h e maxDepth bc :
  events bc !! h = Some e →
  Parents e = [h] →
  1 ≤ maxDepth →
  GetEventChain h maxDepth bc = (Ok [e], bc).
Proof.
  intros He Hpar Hd.
  unfold GetEventChain, GetEventChain_fuel, chain_fuel.
  rewrite traverse_unfold; cbn [fst snd].
  destruct (0 >=? maxDepth) eqn:Hge.
  { apply Z.geb_le in Hge. lia. }
  cbn [orb]. rewrite bool_decide_eq_false_2 by apply not_elem_of_empty.
  rewrite He, Hpar, visit_parents_cons. cbn [visit_parents foldl].
  destruct (Z.to_nat maxDepth) as [|fuel] eqn:Hfuel; [lia|].
  rewrite traverse_unfold; cbn [fst snd].
  rewrite (bool_decide_eq_true_2 (h ∈ {[h]} ∪ ∅)) by set_solver.
  by rewrite orb_true_r.
Qed.

(** X19. When the agent has a [lastEvent] and the hash of the new
    decision event is not yet in the store, [createDecisionEvent] puts the
    new event in front of the chain: [GetEventChain] from the new
    [lastEvent] with bound [maxDepth] is the new event followed by what
    [GetEventChain] from the old [lastEvent] returned with bound
    [maxDepth - 1]. *)
Theorem decision_extends_chain (decision : string) (a : agent.Agent)
    (now now' : Time) (bc : Blockchain) (maxDepth : Z) (chain0 : list Event)
    (r : agent.result unit) (a' : agent.Agent) (bc' : Blockchain) :
  ed25519_contract P →
  ed25519_keypair P (agent.pubKey a) (agent.privKey a) →
  agent.createDecisionEvent P decision a now now' bc = (r, a', bc') →
  agent.lastEvent a ≠ EmptyString →
  GetEvent (agent.lastEvent a') bc = (Ok None, bc) →
  1 ≤ maxDepth →
  GetEventChain (agent.lastEvent a) (maxDepth - 1) bc = (Ok chain0, bc) →
  r = agent.Done tt
  ∧ ∃ e, GetEvent (agent.lastEvent a') bc' = (Ok (Some e), bc')
         ∧ Description (Data e) = decision
         ∧ Parents e = [agent.lastEvent a]
         ∧ GetEventChain (agent.lastEvent a') maxDepth bc'
           = (Ok (e :: chain0), bc').
Proof.
  intros HC Hkp Hrun Hlast Hfresh Hd Hchain.
  destruct (createDecisionEvent_Done decision a now now' bc HC Hkp)
    as (e & agent_id & _ & Hrun' & Hv & Hdata & Hpar & _).
  rewrite Hrun' in Hrun. injection Hrun as <- <- <-.
  rewrite decide_False in Hpar by done.
  cbn [agent.lastEvent agent.set_lastEvent] in *.
  unfold GetEvent, gets in Hfresh. injection Hfresh as Hfresh.
  split; [done|]. exists e.
  split; [unfold GetEvent, gets; cbn; by rewrite lookup_insert_eq|].
  split; [by rewrite Hdata|]. split; [exact Hpar|].
  by apply (GetEventChain_accepted_fresh P e now' bc (agent.lastEvent a)).
Qed.

(** X20. The hash of an event covers its type, description, payload and
    timestamp, not its parents.  So when the agent makes the same decision
    twice in a row at clock readings with the same RFC 3339 timestamp
    (the same second), the second event has the hash of the first: it
    replaces the first in the store, [lastEvent] does not change, and the
    stored event names its own hash as its parent.  [GetEventChain] from
    [lastEvent] is then that one event, whatever the bound: the events
    made before are no longer reached. *)
Theorem repeated_decision_cuts_chain (decision : string) (a0 a1 a2 : agent.Agent)
    (now1 now1' now2 now2' : Time) (bc0 bc1 bc2 : Blockchain)
    (r1 r2 : agent.result unit) :
  ed25519_contract P →
  ed25519_keypair P (agent.pubKey a0) (agent.privKey a0) →
  agent.createDecisionEvent P decision a0 now1 now1' bc0 = (r1, a1, bc1) →
  agent.createDecisionEvent P decision a1 now2 now2' bc1 = (r2, a2, bc2) →
  time_RFC3339 P now1 = time_RFC3339 P now2 →
  agent.lastEvent a1 ≠ EmptyString →
  r2 = agent.Done tt
  ∧ agent.lastEvent a2 = agent.lastEvent a1
  ∧ ∃ e2, events bc2 = <[agent.lastEvent a1 := e2]> (events bc1)
          ∧ dom (events bc2) = dom (events bc1)
          ∧ Parents e2 = [agent.lastEvent a2]
          ∧ ∀ maxDepth, 1 ≤ maxDepth →
              GetEventChain (agent.lastEvent a2) maxDepth bc2 = (Ok [e2], bc2).
Proof.
  intros HC Hkp Hrun1 Hrun2 Hts Hlast.
  destruct (createDecisionEvent_Done decision a0 now1 now1' bc0 HC Hkp)
    as (e1 & id1 & Hid1 & Hrun1' & _ & Hdata1 & _ & _).
  rewrite Hrun1' in Hrun1. injection Hrun1 as <- <- <-.
  destruct (createDecisionEvent_Done decision
              (agent.set_lastEvent a0 (hash_of P e1)) now2 now2'
              (accepted P e1 now1' bc0) HC Hkp)
    as (e2 & id2 & Hid2 & Hrun2' & _ & Hdata2 & Hpar2 & _).
  rewrite Hrun2' in Hrun2. injection Hrun2 as <- <- <-.
  change (agent.PublicKeyHex (agent.set_lastEvent a0 (hash_of P e1)))
    with (agent.PublicKeyHex a0) in Hid2.
  rewrite Hid1 in Hid2. injection Hid2 as <-.
  cbn [agent.lastEvent agent.set_lastEvent] in *.
  rewrite decide_False in Hpar2 by done.
  assert (hash_of P e2 = hash_of P e1) as Hhash.
  { apply hash_of_Data. by rewrite Hdata1, Hdata2, Hts. }
  rewrite Hhash. split; [done|]. split; [done|].
  exists e2. split; [cbn; by rewrite Hhash|].
  split.
  { cbn. rewrite Hhash, !dom_insert_L. set_solver. }
  split; [exact Hpar2|].
  intros maxDepth Hd. apply GetEventChain_own_parent; [|exact Hpar2|exact Hd].
  cbn. by rewrite Hhash, lookup_insert_eq.
Qed.

End AgentMethods.
